(** * Comet-Hive-Agent: the deterministic shortcut engine

    A shallow embedding of [comet_engine.py] and the properties of its
    registry, execution log, schema export and citation helpers.

    Conventions of the embedding.
    - A Python [str] is a sequence of Unicode code points, [list N].
    - A Python [float] is an IEEE 754 binary64 number, the kernel's [float];
      comparisons are [PrimFloat.leb], so NaN and signed zeros behave as in
      CPython.
    - Objects whose identity matters (the log list, the copies handed out by
      [get_execution_log], the result dictionaries) live in a store and are
      named by references.  Nodes, citations and the two bags
      ([design_implications], [context]) are never written by the engine and
      are carried by value.
    - [datetime.utcnow().isoformat()] is an input of the environment: the
      operations that read the clock take the reading as the argument [now].
    - An operation is a computation [M A] over the engine and the store;
      [None] is reserved for a dangling reference and is shown unreachable. *)

From Corelib Require Import PrimFloat.
From Stdlib Require Import NArith ZArith Ascii.
From stdpp Require Import gmap list strings.

Local Set Warnings "-register-all,-inexact-float".

(** ** Python values *)

Abbreviation str := (list N) (only parsing).

(** An ASCII literal as a [str]. *)
Fixpoint pystr (s : string) : str :=
  match s with
  | EmptyString => []
  | String a s' => N_of_ascii a :: pystr s'
  end.

(** [bool(s)] for a string: the empty string is falsy. *)
Definition truthy (s : str) : bool :=
  match s with [] => false | _ :: _ => true end.

(** The values of [typing.Any] that the bags carry. *)
Inductive Any : Type :=
  | PyNone
  | PyBool (b : bool)
  | PyInt (z : Z)
  | PyFloat (x : float)
  | PyStr (s : str)
  | PyList (xs : list Any)
  | PyDict (kvs : list (str * Any)).

(** [Dict[str, Any]], in insertion order. *)
Abbreviation Dict := (list (str * Any)) (only parsing).

Inductive Exception : Type :=
  | ValueError (msg : str)
  | UnicodeEncodeError (position : nat).

Inductive Result (A : Type) : Type :=
  | Ok (a : A)
  | Raise (e : Exception).
Arguments Ok {A} a.
Arguments Raise {A} e.

(** ** VerifiedCitation *)

Record VerifiedCitation : Type := mkVerifiedCitation {
  source_id : str;
  content_hash : str;
  timestamp : str;
  verification_method : str
}.

Definition VerifiedCitation_post_init (self : VerifiedCitation) : Result unit :=
  if negb (truthy (content_hash self))
  then Raise (ValueError (pystr "Citation must have content_hash"))
  else Ok tt.

(** The dataclass constructor: the generated [__init__] stores the four
    fields and then runs [__post_init__]. *)
Definition new_VerifiedCitation
    (source_id content_hash timestamp verification_method : str)
    : Result VerifiedCitation :=
  let self := mkVerifiedCitation source_id content_hash timestamp verification_method in
  match VerifiedCitation_post_init self with
  | Raise e => Raise e
  | Ok _ => Ok self
  end.

(** ** ShortcutNode *)

Record ShortcutNode : Type := mkShortcutNode {
  node_id : str;
  pattern : str;
  action : str;
  confidence : float;
  verified_citations : list VerifiedCitation;
  design_implications : Dict
}.

Definition validate (self : ShortcutNode) : bool :=
  if negb (PrimFloat.leb 0 (confidence self) && PrimFloat.leb (confidence self) 1)
  then false
  else if negb (truthy (node_id self)) || negb (truthy (pattern self))
  then false
  else true.

(** The validation predicate as the specification words it. *)
Definition in_unit_interval (c : float) : Prop :=
  PrimFloat.leb 0 c = true ∧ PrimFloat.leb c 1 = true.

Definition valid_node (n : ShortcutNode) : Prop :=
  node_id n ≠ [] ∧ pattern n ≠ [] ∧ in_unit_interval (confidence n).

(** ** The store *)

Abbreviation ref := positive (only parsing).

(** One citation of a result dictionary. *)
Record CitationEntry : Type := mkCitationEntry {
  cit_source_id : str;
  cit_content_hash : str;
  cit_verification_method : str
}.

(** The dictionary built by [execute_shortcut]. *)
Record ExecutionRecord : Type := mkExecutionRecord {
  res_node_id : str;
  res_action : str;
  res_confidence : float;
  res_timestamp : str;
  res_verified_citations : list CitationEntry;
  res_design_implications : Dict;
  res_context : Dict
}.

(** List objects hold references to their items.  A reference in a list that
    is not in [dicts] names an object of the caller the engine never made. *)
Record Heap : Type := mkHeap {
  lists : gmap positive (list positive);
  dicts : gmap positive ExecutionRecord
}.

(** ** CometEngine *)

Record CometEngine : Type := mkCometEngine {
  shortcuts : gmap (list N) ShortcutNode;
  execution_log : ref;
  schema_version : str
}.

Record State : Type := mkState {
  self : CometEngine;
  heap : Heap
}.

(** Computations over the engine and the store. *)
Definition M (A : Type) : Type := State → option (A * State).

Global Instance M_ret : MRet M := λ A x st, Some (x, st).
Global Instance M_bind : MBind M := λ A B f m st,
  match m st with
  | Some (x, st') => f x st'
  | None => None
  end.

Definition get_self : M CometEngine := λ st, Some (self st, st).

Definition set_shortcuts (d : gmap (list N) ShortcutNode) : M unit := λ st,
  Some (tt, mkState (mkCometEngine d (execution_log (self st)) (schema_version (self st)))
                    (heap st)).

(** Read a list object. *)
Definition list_items (r : ref) : M (list positive) := λ st,
  match lists (heap st) !! r with
  | Some l => Some (l, st)
  | None => None
  end.

(** Allocate a list object with the given items. *)
Definition new_list (items : list positive) : M positive := λ st,
  let r := fresh (dom (lists (heap st))) in
  Some (r, mkState (self st)
                   (mkHeap (<[r := items]> (lists (heap st))) (dicts (heap st)))).

(** Allocate a result dictionary. *)
Definition new_dict (d : ExecutionRecord) : M positive := λ st,
  let r := fresh (dom (dicts (heap st))) in
  Some (r, mkState (self st)
                   (mkHeap (lists (heap st)) (<[r := d]> (dicts (heap st))))).

(** [l.append(x)] on the list object [r]. *)
Definition list_append (r : ref) (x : positive) : M unit := λ st,
  match lists (heap st) !! r with
  | Some l =>
      Some (tt, mkState (self st)
                        (mkHeap (<[r := l ++ [x]]> (lists (heap st))) (dicts (heap st))))
  | None => None
  end.

(** [CometEngine.__init__], in a store that may already hold objects. *)
Definition CometEngine_init (h : Heap) : State :=
  let r := fresh (dom (lists h)) in
  mkState (mkCometEngine ∅ r (pystr "1.0.0"))
          (mkHeap (<[r := []]> (lists h)) (dicts h)).

Definition register_shortcut (node : ShortcutNode) : M bool :=
  if negb (validate node) then mret false
  else
    e ← get_self;
    set_shortcuts (<[node_id node := node]> (shortcuts e));;
    mret true.

Definition execute_shortcut (now : str) (node_id : str) (context : Dict)
    : M (option positive) :=
  e ← get_self;
  match shortcuts e !! node_id with
  | None => mret None
  | Some node =>
      result ← new_dict {|
        res_node_id := node_id;
        res_action := action node;
        res_confidence := confidence node;
        res_timestamp := now;
        res_verified_citations :=
          (λ cit, {| cit_source_id := source_id cit;
                     cit_content_hash := content_hash cit;
                     cit_verification_method := verification_method cit |})
            <$> verified_citations node;
        res_design_implications := design_implications node;
        res_context := context
      |};
      list_append (execution_log e) result;;
      mret (Some result)
  end.

(** ** [str.encode('utf-8')], strict error handler *)

Definition is_surrogate (c : N) : bool := ((0xD800 <=? c) && (c <=? 0xDFFF))%N.

(** The bytes of one code point; [None] where the strict codec refuses it.
    A Python [str] holds code points below [0x110000] only. *)
Definition utf8_encode_char (c : N) : option (list N) :=
  if (c <? 0x80)%N then Some [c]
  else if (c <? 0x800)%N then
    Some [N.lor 0xC0 (N.shiftr c 6); N.lor 0x80 (N.land c 0x3F)]
  else if (c <? 0x10000)%N then
    if is_surrogate c then None
    else Some [N.lor 0xE0 (N.shiftr c 12);
               N.lor 0x80 (N.land (N.shiftr c 6) 0x3F);
               N.lor 0x80 (N.land c 0x3F)]
  else if (c <? 0x110000)%N then
    Some [N.lor 0xF0 (N.shiftr c 18);
          N.lor 0x80 (N.land (N.shiftr c 12) 0x3F);
          N.lor 0x80 (N.land (N.shiftr c 6) 0x3F);
          N.lor 0x80 (N.land c 0x3F)]
  else None.

Fixpoint utf8_encode_from (position : nat) (s : str) : Result (list N) :=
  match s with
  | [] => Ok []
  | c :: s' =>
      match utf8_encode_char c with
      | None => Raise (UnicodeEncodeError position)
      | Some bs =>
          match utf8_encode_from (S position) s' with
          | Ok rest => Ok (bs ++ rest)
          | Raise e => Raise e
          end
      end
  end.

Definition encode_utf8 (s : str) : Result (list N) := utf8_encode_from 0 s.

(** The code points the strict codec accepts: all but the surrogates. *)
Definition is_scalar_value (c : N) : Prop :=
  (c < 0xD800 ∨ (0xDFFF < c ∧ c < 0x110000))%N.

(** The strings the strict codec accepts: no lone surrogate. *)
Definition encodable (s : str) : Prop := Forall is_scalar_value s.

(** The values a Python [str] can hold. *)
Definition is_str (s : str) : Prop := Forall (λ c, (c < 0x110000)%N) s.

(** ** [hashlib.sha256]: SHA-256 as in FIPS 180-4

    Bytes and 32-bit words are [N]; additions wrap modulo [2^32]. *)

Module SHA256.

Local Open Scope N_scope.

Definition add32 (x y : N) : N := (x + y) mod 2 ^ 32.
Definition not32 (x : N) : N := N.lxor x 0xFFFFFFFF.
Definition shr (n x : N) : N := N.shiftr x n.
Definition rotr (n x : N) : N :=
  N.lor (N.shiftr x n) (N.shiftl x (32 - n) mod 2 ^ 32).

Definition Ch (x y z : N) : N := N.lxor (N.land x y) (N.land (not32 x) z).
Definition Maj (x y z : N) : N :=
  N.lxor (N.lxor (N.land x y) (N.land x z)) (N.land y z).
Definition Sigma0 (x : N) : N := N.lxor (N.lxor (rotr 2 x) (rotr 13 x)) (rotr 22 x).
Definition Sigma1 (x : N) : N := N.lxor (N.lxor (rotr 6 x) (rotr 11 x)) (rotr 25 x).
Definition sigma0 (x : N) : N := N.lxor (N.lxor (rotr 7 x) (rotr 18 x)) (shr 3 x).
Definition sigma1 (x : N) : N := N.lxor (N.lxor (rotr 17 x) (rotr 19 x)) (shr 10 x).

(** The round constants are the first 32 bits of the fractional parts of the
    cube roots of the first 64 primes; the initial hash value takes the
    square roots of the first 8. *)
Definition primes : list N :=
  [2; 3; 5; 7; 11; 13; 17; 19; 23; 29; 31; 37; 41; 43; 47; 53; 59; 61; 67; 71;
   73; 79; 83; 89; 97; 101; 103; 107; 109; 113; 127; 131; 137; 139; 149; 151;
   157; 163; 167; 173; 179; 181; 191; 193; 197; 199; 211; 223; 227; 229; 233;
   239; 241; 251; 257; 263; 269; 271; 277; 281; 283; 293; 307; 311].

(** The integer cube root, one bit at a time from the top. *)
Fixpoint cube_root (bits : nat) (x r : N) : N :=
  match bits with
  | O => r
  | S b =>
      let r' := r + 2 ^ N.of_nat b in
      cube_root b x (if r' ^ 3 <=? x then r' else r)
  end.

Definition K : list N :=
  Eval vm_compute in (λ p, cube_root 35 (p * 2 ^ 96) 0 mod 2 ^ 32) <$> primes.

Definition H0_words : list N :=
  Eval vm_compute in (λ p, N.sqrt (p * 2 ^ 64) mod 2 ^ 32) <$> take 8 primes.

(** The eight working variables, and the eight words of a hash value. *)
Record Regs : Type := mkRegs { ra : N; rb : N; rc : N; rd : N; re : N; rf : N; rg : N; rh : N }.

Definition H0 : Regs :=
  let h i := nth i H0_words 0 in
  mkRegs (h 0%nat) (h 1%nat) (h 2%nat) (h 3%nat) (h 4%nat) (h 5%nat) (h 6%nat) (h 7%nat).

(** Padding: a [1] bit, zero bits up to 448 modulo 512, the bit length on
    64 bits, big-endian. *)
Definition be_bytes (n : nat) (x : N) : list N :=
  (λ i, N.shiftr x (8 * N.of_nat i) mod 256) <$> rev (seq 0 n).

Definition pad (msg : list N) : list N :=
  let len := N.of_nat (length msg) in
  let zeros := N.to_nat ((64 - (len + 9) mod 64) mod 64) in
  msg ++ [0x80] ++ replicate zeros 0 ++ be_bytes 8 (8 * len).

(** Big-endian 32-bit words of a byte string. *)
Fixpoint words (bs : list N) : list N :=
  match bs with
  | b0 :: b1 :: b2 :: b3 :: bs' =>
      (N.shiftl b0 24 + N.shiftl b1 16 + N.shiftl b2 8 + b3) :: words bs'
  | _ => []
  end.

(** The message schedule, most recent word first. *)
Fixpoint schedule (n : nat) (w : list N) : list N :=
  match n with
  | O => w
  | S n' =>
      let wt := add32 (add32 (add32 (sigma1 (nth 1 w 0)) (nth 6 w 0))
                             (sigma0 (nth 14 w 0))) (nth 15 w 0) in
      schedule n' (wt :: w)
  end.

Definition round (r : Regs) (kw : N * N) : Regs :=
  let T1 := add32 (add32 (add32 (add32 (rh r) (Sigma1 (re r))) (Ch (re r) (rf r) (rg r)))
                         kw.1) kw.2 in
  let T2 := add32 (Sigma0 (ra r)) (Maj (ra r) (rb r) (rc r)) in
  mkRegs (add32 T1 T2) (ra r) (rb r) (rc r) (add32 (rd r) T1) (re r) (rf r) (rg r).

Definition compress (h : Regs) (block : list N) : Regs :=
  let w := rev (schedule 48 (rev (words block))) in
  let r := fold_left round (zip K w) h in
  mkRegs (add32 (ra h) (ra r)) (add32 (rb h) (rb r)) (add32 (rc h) (rc r))
         (add32 (rd h) (rd r)) (add32 (re h) (re r)) (add32 (rf h) (rf r))
         (add32 (rg h) (rg r)) (add32 (rh h) (rh r)).

Fixpoint blocks (n : nat) (bs : list N) (h : Regs) : Regs :=
  match n with
  | O => h
  | S n' => blocks n' (drop 64 bs) (compress h (take 64 bs))
  end.

Definition digest_regs (msg : list N) : Regs :=
  let p := pad msg in
  blocks (length p / 64) p H0.

(** [hexdigest()]: each word as eight lowercase hexadecimal digits. *)
Definition hexdigits : str := pystr "0123456789abcdef".

Definition hexdigit (d : N) : N := nth (N.to_nat d) hexdigits 0.

Definition hex32 (x : N) : str :=
  (λ i, hexdigit (N.land (N.shiftr x (4 * N.of_nat i)) 15)) <$> rev (seq 0 8).

Definition hexdigest (msg : list N) : str :=
  let r := digest_regs msg in
  hex32 (ra r) ++ hex32 (rb r) ++ hex32 (rc r) ++ hex32 (rd r) ++
  hex32 (re r) ++ hex32 (rf r) ++ hex32 (rg r) ++ hex32 (rh r).

End SHA256.

Definition is_lower_hex (c : N) : Prop := c ∈ SHA256.hexdigits.

(** ** CometEngine, continued *)

(** [hashlib.sha256(content.encode('utf-8')).hexdigest()] *)
Definition sha256_hex (content : str) : Result str :=
  match encode_utf8 content with
  | Raise e => Raise e
  | Ok bytes => Ok (SHA256.hexdigest bytes)
  end.

Definition generate_content_hash (content : str) : M (Result str) :=
  mret (sha256_hex content).

(** The reduced view of a node in the exported schema. *)
Record ShortcutView : Type := mkShortcutView {
  view_pattern : str;
  view_action : str;
  view_confidence : float;
  view_verified_citations : nat;
  view_design_implications : Dict
}.

Record Schema : Type := mkSchema {
  exp_schema_version : str;
  exp_shortcuts : gmap (list N) ShortcutView;
  exp_total_executions : nat
}.

Definition view_of (node : ShortcutNode) : ShortcutView := {|
  view_pattern := pattern node;
  view_action := action node;
  view_confidence := confidence node;
  view_verified_citations := length (verified_citations node);
  view_design_implications := design_implications node
|}.

Definition export_schema : M Schema :=
  e ← get_self;
  log ← list_items (execution_log e);
  mret {| exp_schema_version := schema_version e;
          exp_shortcuts := view_of <$> shortcuts e;
          exp_total_executions := length log |}.

(** [self.execution_log.copy()]: a new list object with the same items. *)
Definition get_execution_log : M positive :=
  e ← get_self;
  log ← list_items (execution_log e);
  new_list log.

(** ** create_citation *)

Definition create_citation (now : str) (source_id content verification_method : str)
    : Result VerifiedCitation :=
  match sha256_hex content with
  | Raise e => Raise e
  | Ok content_hash =>
      let timestamp := now in
      new_VerifiedCitation source_id content_hash timestamp verification_method
  end.

(** The call that leaves [verification_method] to its default. *)
Definition create_citation_default (now : str) (source_id content : str)
    : Result VerifiedCitation :=
  create_citation now source_id content (pystr "sha256").

(** ** The caller

    What a caller can do to a list object it holds: any sequence of
    [append], [insert], [pop], [remove], [clear], [sort], [reverse], item
    assignment and deletion rewrites the items of that one object. *)
Definition caller_set_items (r : ref) (items : list positive) (st : State) : State :=
  mkState (self st)
          (mkHeap (<[r := items]> (lists (heap st))) (dicts (heap st))).

(** [l.append(x)] by the caller; nothing happens if [r] is not a list. *)
Definition caller_append (r : ref) (x : positive) (st : State) : State :=
  match lists (heap st) !! r with
  | Some l => caller_set_items r (l ++ [x]) st
  | None => st
  end.

(** A write by the caller to a dictionary object, such as [d[key] = value]. *)
Definition caller_set_dict (r : ref) (d : ExecutionRecord) (st : State) : State :=
  mkState (self st)
          (mkHeap (lists (heap st)) (<[r := d]> (dicts (heap st)))).

(** ** Histories of calls *)

Inductive Call : Type :=
  | call_register_shortcut (node : ShortcutNode)
  | call_execute_shortcut (now : str) (node_id : str) (context : Dict)
  | call_export_schema
  | call_get_execution_log.

Inductive Outcome : Type :=
  | returned_bool (b : bool)
  | returned_result (r : option positive)
  | returned_schema (s : Schema)
  | returned_list (r : positive).

Definition perform (c : Call) : M Outcome :=
  match c with
  | call_register_shortcut node =>
      b ← register_shortcut node; mret (returned_bool b)
  | call_execute_shortcut now node_id context =>
      r ← execute_shortcut now node_id context; mret (returned_result r)
  | call_export_schema =>
      s ← export_schema; mret (returned_schema s)
  | call_get_execution_log =>
      r ← get_execution_log; mret (returned_list r)
  end.

Fixpoint run (cs : list Call) : M (list Outcome) :=
  match cs with
  | [] => mret []
  | c :: cs' => o ← perform c; os ← run cs'; mret (o :: os)
  end.

(** The states an engine goes through after its creation. *)
Definition reachable (st : State) : Prop :=
  ∃ h0 cs os, run cs (CometEngine_init h0) = Some (os, st).

(** The execution log as the sequence of its entries. *)
Definition log_refs (st : State) : option (list positive) :=
  lists (heap st) !! execution_log (self st).

Definition log_entries (st : State) : option (list ExecutionRecord) :=
  l ← log_refs st; mapM (λ r, dicts (heap st) !! r) l.

(** The successful [execute_shortcut] calls of a history. *)
Definition is_success (o : Outcome) : bool :=
  match o with
  | returned_result (Some _) => true
  | _ => false
  end.

Definition successful_executions (os : list Outcome) : nat :=
  length (filter (λ o, is_success o = true) os).

(** The state after a registration that passed validation. *)
Definition registered (node : ShortcutNode) (st : State) : State :=
  mkState (mkCometEngine (<[node_id node := node]> (shortcuts (self st)))
                         (execution_log (self st)) (schema_version (self st)))
          (heap st).

(** A citation without its timestamp. *)
Definition flatten_citation (cit : VerifiedCitation) : CitationEntry :=
  mkCitationEntry (source_id cit) (content_hash cit) (verification_method cit).

(** The record the specification describes for one execution: the
    shortcut's id, action and confidence, the clock reading, the flattened
    citations, the metadata bag and the context. *)
Definition expected_record (now : str) (node : ShortcutNode) (context : Dict)
    : ExecutionRecord :=
  mkExecutionRecord (node_id node) (action node) (confidence node) now
    (flatten_citation <$> verified_citations node) (design_implications node) context.

(** [n] calls of [execute_shortcut], each with its clock reading, id and
    context. *)
Definition execute_calls (cs : list (str * str * Dict)) : list Call :=
  (λ c, call_execute_shortcut c.1.1 c.1.2 c.2) <$> cs.

(** What holds of an engine between two calls: the log is a list object whose
    items are result dictionaries, every node of the registry is valid and
    filed under its own id, and the schema version is the one [__init__] set. *)
Definition engine_inv (st : State) : Prop :=
  is_Some (log_entries st) ∧
  map_Forall (λ k n, node_id n = k ∧ valid_node n) (shortcuts (self st)) ∧
  schema_version (self st) = pystr "1.0.0".

(** The entry the log gets for the call [c] = (clock reading, id, context). *)
Definition record_for (reg : gmap (list N) ShortcutNode) (c : str * str * Dict)
    (rec : ExecutionRecord) : Prop :=
  ∃ node, reg !! c.1.2 = Some node ∧
          rec = mkExecutionRecord c.1.2 (action node) (confidence node) c.1.1
                  (flatten_citation <$> verified_citations node)
                  (design_implications node) c.2.

(** ** Fixtures of [test_comet_engine.py] *)

Definition empty_store : Heap := mkHeap ∅ ∅.

Definition doc_1 : VerifiedCitation :=
  mkVerifiedCitation (pystr "doc_1") (SHA256.hexdigest (pystr "optimization pattern"))
    (pystr "2025-01-01T00:00:00") (pystr "sha256").

Definition opt_1 : ShortcutNode :=
  mkShortcutNode (pystr "opt_1") (pystr "optimize") (pystr "execute_optimization")
    0.85%float [doc_1] [(pystr "efficiency", PyStr (pystr "high"))].

Definition log_test : ShortcutNode :=
  mkShortcutNode (pystr "log_test") (pystr "test") (pystr "test_action") 0.5%float [] [].

Definition run_context (i : Z) : Dict := [(pystr "run", PyInt i)].

(** The engine of [test_execute_shortcut_success] after its registration. *)
Definition engine_with_opt_1 : State := registered opt_1 (CometEngine_init empty_store).

(** The engine of [test_execution_log_tracking] after its registration. *)
Definition engine_with_log_test : State := registered log_test (CometEngine_init empty_store).

(** The state a fresh engine is in after the calls [cs]. *)
Definition state_after (cs : list Call) : State :=
  match run cs (CometEngine_init empty_store) with
  | Some (_, st) => st
  | None => CometEngine_init empty_store
  end.

Definition copy_test : ShortcutNode :=
  mkShortcutNode (pystr "copy_test") (pystr "test") (pystr "test") 0.5%float [] [].

(** The engine of [test_get_execution_log_returns_copy] before it reads the
    log. *)
Definition engine_after_copy_test : State :=
  state_after [call_register_shortcut copy_test;
               call_execute_shortcut (pystr "2025-01-01T00:00:00") (pystr "copy_test") []].

(** The entry of that test after [entry["context"] = {"fake": "entry"}]. *)
Definition tampered_entry : ExecutionRecord :=
  mkExecutionRecord (pystr "copy_test") (pystr "test") 0.5%float
    (pystr "2025-01-01T00:00:00") [] [] [(pystr "fake", PyStr (pystr "entry"))].

(** A string with a lone surrogate, [chr(0xD800)] in Python. *)
Definition lone_surrogate : str := [0xD800%N].

(** ** What a later state keeps of an earlier one

    The engine is the same object with the same log object; no id has left
    the registry; every dictionary and every list other than the log is as
    it was; the log has its earlier items in front. *)
Definition grows (st st' : State) : Prop :=
  execution_log (self st') = execution_log (self st) ∧
  dom (shortcuts (self st)) ⊆ dom (shortcuts (self st')) ∧
  dicts (heap st) ⊆ dicts (heap st') ∧
  delete (execution_log (self st)) (lists (heap st)) ⊆
    delete (execution_log (self st)) (lists (heap st')) ∧
  ∃ l l', log_refs st = Some l ∧ log_refs st' = Some (l ++ l').

(** The items of the log are pairwise distinct dictionaries, each made for an
    id that is registered and not empty, with a confidence that passed
    validation. *)
Definition log_inv (st : State) : Prop :=
  ∃ l es,
    log_refs st = Some l ∧
    Forall2 (λ r e, dicts (heap st) !! r = Some e) l es ∧
    NoDup l ∧
    Forall (λ e, is_Some (shortcuts (self st) !! res_node_id e) ∧
                 res_node_id e ≠ [] ∧
                 in_unit_interval (res_confidence e)) es.

(** Two nodes for one id, as a caller would register them in turn. *)
Definition log_test_v2 : ShortcutNode :=
  mkShortcutNode (pystr "log_test") (pystr "other") (pystr "other_action") 1%float [] [].

(** The dictionaries a history returned from [execute_shortcut], in call
    order. *)
Definition returned_results (os : list Outcome) : list positive :=
  omap (λ o, match o with returned_result r => r | _ => None end) os.

(** The nodes a history registered: those of its [register_shortcut] calls
    that passed validation, in call order. *)
Definition valid_registrations (cs : list Call) : list ShortcutNode :=
  omap (λ c, match c with
             | call_register_shortcut node => if validate node then Some node else None
             | _ => None
             end) cs.

(** The first code point of a UTF-8 byte string and the bytes after it,
    read off the leading byte.  It is used to show that the encoder loses
    nothing; the engine itself never decodes. *)
Definition utf8_decode_char (bs : list N) : option (N * list N) :=
  match bs with
  | [] => None
  | b0 :: bs1 =>
      if (b0 <? 0x80)%N then Some (b0, bs1)
      else if (b0 <? 0xE0)%N then
        match bs1 with
        | b1 :: bs2 => Some (((b0 - 0xC0) * 64 + (b1 - 0x80))%N, bs2)
        | _ => None
        end
      else if (b0 <? 0xF0)%N then
        match bs1 with
        | b1 :: b2 :: bs3 =>
            Some (((b0 - 0xE0) * 4096 + (b1 - 0x80) * 64 + (b2 - 0x80))%N, bs3)
        | _ => None
        end
      else
        match bs1 with
        | b1 :: b2 :: b3 :: bs4 =>
            Some (((b0 - 0xF0) * 262144 + (b1 - 0x80) * 4096 + (b2 - 0x80) * 64
                   + (b3 - 0x80))%N, bs4)
        | _ => None
        end
  end.

(** The [execute_shortcut] calls of a history that returned a dictionary,
    each as its clock reading, id and context, in call order. *)
Definition executed (cs : list Call) (os : list Outcome) : list (str * str * Dict) :=
  omap (λ co, match co with
              | (call_execute_shortcut now id ctx, returned_result (Some _)) =>
                  Some (now, id, ctx)
              | _ => None
              end) (zip cs os).

(** What an entry says of the call that made it. *)
Definition entry_call (e : ExecutionRecord) : str * str * Dict :=
  (res_timestamp e, res_node_id e, res_context e).

(** * Properties *)

(** ** SHA-256 on the test vectors of the standard *)

Example sha256_abc :
  SHA256.hexdigest (pystr "abc") =
  pystr "ba7816bf8f01cfea414140de5dae2223b00361a396177a9cb410ff61f20015ad".
Proof. by vm_compute. Qed.

Example sha256_empty :
  SHA256.hexdigest [] =
  pystr "e3b0c44298fc1c149afbf4c8996fb92427ae41e4649b934ca495991b7852b855".
Proof. by vm_compute. Qed.

Example sha256_two_blocks :
  SHA256.hexdigest (pystr "abcdbcdecdefdefgefghfghighijhijkijkljklmklmnlmnomnopnopq") =
  pystr "248d6a61d20638b8e5c026930c3e6039a33ce45964ff2167f6ecedd419db06c1".
Proof. by vm_compute. Qed.

(** The encoder on one to four byte code points, and on a surrogate. *)
Example encode_utf8_examples :
  encode_utf8 [0x68; 0xE9; 0x20AC; 0x1F600]%N =
    Ok [104; 195; 169; 226; 130; 172; 240; 159; 152; 128]%N ∧
  encode_utf8 (pystr "ab" ++ [0xDFFF%N]) = Raise (UnicodeEncodeError 2).
Proof. split; reflexivity. Qed.

Example sha256_hex_non_ascii :
  sha256_hex [0x68; 0xE9; 0x20AC; 0x1F600]%N =
  Ok (pystr "39d15ee696a6f5bd03a5220ddcac864c6f6c2833b3ae973bfa10e202056fd284").
Proof. by vm_compute. Qed.

(** ** Validation *)

Lemma truthy_nonempty (s : str) : truthy s = true ↔ s ≠ [].
Proof. destruct s; simpl; split; congruence. Qed.

Lemma truthy_empty (s : str) : truthy s = false ↔ s = [].
Proof. destruct s; simpl; split; congruence. Qed.

Lemma validate_valid_node (n : ShortcutNode) : validate n = true ↔ valid_node n.
Proof.
  unfold validate, valid_node, in_unit_interval.
  rewrite <- !truthy_nonempty.
  destruct (PrimFloat.leb 0 (confidence n)), (PrimFloat.leb (confidence n) 1),
    (truthy (node_id n)), (truthy (pattern n)); simpl; intuition congruence.
Qed.

Lemma validate_ignores_action (n : ShortcutNode) (a : str) :
  validate (mkShortcutNode (node_id n) (pattern n) a (confidence n)
              (verified_citations n) (design_implications n)) = validate n.
Proof. reflexivity. Qed.

(** The tests of [TestShortcutNode], and the edges of the interval. *)
Example validate_examples :
  let node c := mkShortcutNode (pystr "test_node") (pystr "test") (pystr "test") c [] [] in
  validate (node 0.95%float) = true ∧
  validate (node 1.5%float) = false ∧
  validate (node (-0.1)%float) = false ∧
  validate (node 0%float) = true ∧
  validate (node 1%float) = true ∧
  validate (node (-0)%float) = true ∧
  validate (node nan) = false ∧
  validate (mkShortcutNode [] (pystr "test") (pystr "test") 0.5%float [] []) = false ∧
  validate (mkShortcutNode (pystr "test") [] (pystr "test") 0.5%float [] []) = false.
Proof. vm_compute. repeat split. Qed.

(** ** Registration *)

Lemma register_shortcut_run (node : ShortcutNode) (st : State) :
  register_shortcut node st =
    Some (validate node, if validate node then registered node st else st).
Proof. unfold register_shortcut. by destruct (validate node). Qed.

(** C1: [register_shortcut] answers [true] exactly for the nodes that pass
    validation (non-empty [node_id], non-empty [pattern], [confidence] in the
    closed interval from 0.0 to 1.0, both ends included).  On [false] the
    whole state, the registry with it, is as before; on [true] the node sits
    under its [node_id], whatever was there, and nothing else moved. *)
Theorem register_shortcut_iff_valid (node : ShortcutNode) (st : State) :
  ∃ b st',
    register_shortcut node st = Some (b, st') ∧
    (b = true ↔ valid_node node) ∧
    (b = false → st' = st) ∧
    (b = true →
       shortcuts (self st') = <[node_id node := node]> (shortcuts (self st)) ∧
       shortcuts (self st') !! node_id node = Some node ∧
       (∀ k, k ≠ node_id node → shortcuts (self st') !! k = shortcuts (self st) !! k) ∧
       execution_log (self st') = execution_log (self st) ∧
       heap st' = heap st) ∧
    in_unit_interval 0 ∧ in_unit_interval 1.
Proof.
  exists (validate node), (if validate node then registered node st else st).
  split; [apply register_shortcut_run|].
  split; [apply validate_valid_node|].
  split; [by intros ->|].
  split; [|by vm_compute].
  intros ->. simpl. repeat split.
  - apply lookup_insert_eq.
  - intros k Hk. by apply lookup_insert_ne.
Qed.

(** C10: validation never looks at [action]; a node with an empty [action]
    and otherwise valid fields is registered. *)
Theorem register_shortcut_empty_action
    (id pat : str) (c : float) (cits : list VerifiedCitation) (bag : Dict) (st : State) :
  id ≠ [] → pat ≠ [] → in_unit_interval c →
  let node := mkShortcutNode id pat [] c cits bag in
  (∀ a, validate (mkShortcutNode id pat a c cits bag) = validate node) ∧
  ∃ st', register_shortcut node st = Some (true, st') ∧
         shortcuts (self st') !! id = Some node.
Proof.
  intros Hid Hpat Hc node. split; [done|].
  assert (validate node = true) as Hv by (by apply validate_valid_node).
  exists (registered node st). rewrite register_shortcut_run, Hv.
  split; [done|]. apply lookup_insert_eq.
Qed.

Lemma register_shortcut_empty_action_witness :
  ∃ st', register_shortcut
           (mkShortcutNode (pystr "a") (pystr "p") [] 0.9%float [] [])
           (CometEngine_init (mkHeap ∅ ∅)) = Some (true, st') ∧
         shortcuts (self st') !! pystr "a" =
           Some (mkShortcutNode (pystr "a") (pystr "p") [] 0.9%float [] []).
Proof.
  apply (register_shortcut_empty_action (pystr "a") (pystr "p") 0.9%float [] []
           (CometEngine_init (mkHeap ∅ ∅))).
  - by vm_compute.
  - by vm_compute.
  - by vm_compute.
Defined.

(** ** Citations *)

(** C8: a citation with an empty [content_hash] is refused with
    [ValueError]; with any other [content_hash] it is built, and its four
    fields read back as given. *)
Theorem new_VerifiedCitation_spec (sid h ts m : str) :
  (h = [] → ∃ msg, new_VerifiedCitation sid h ts m = Raise (ValueError msg)) ∧
  (h ≠ [] →
     ∃ c, new_VerifiedCitation sid h ts m = Ok c ∧
          source_id c = sid ∧ content_hash c = h ∧
          timestamp c = ts ∧ verification_method c = m).
Proof.
  unfold new_VerifiedCitation, VerifiedCitation_post_init. simpl.
  split.
  - intros ->. simpl. eauto.
  - intros Hh. apply truthy_nonempty in Hh. rewrite Hh. simpl. eauto 10.
Qed.

(** ** The monad of operations *)

Lemma bind_run {A B} (m : M A) (f : A → M B) (st : State) :
  (m ≫= f) st = match m st with Some (x, st') => f x st' | None => None end.
Proof. reflexivity. Qed.

Lemma ret_run {A} (x : A) (st : State) : mret (M := M) x st = Some (x, st).
Proof. reflexivity. Qed.

(** ** The log in the store *)

Lemma log_entries_Some (st : State) (es : list ExecutionRecord) :
  log_entries st = Some es ↔
  ∃ l, log_refs st = Some l ∧ Forall2 (λ r e, dicts (heap st) !! r = Some e) l es.
Proof.
  unfold log_entries. destruct (log_refs st) as [l|]; simpl.
  - rewrite mapM_Some. split; [eauto|]. by intros (? & [= <-] & ?).
  - split; [done|]. by intros (? & ? & ?).
Qed.

Lemma log_entries_length (st : State) (l : list positive) (es : list ExecutionRecord) :
  log_refs st = Some l → log_entries st = Some es → length es = length l.
Proof.
  intros Hl (l' & Hl' & HF)%log_entries_Some.
  rewrite Hl in Hl'. injection Hl' as <-. symmetry. by eapply Forall2_length.
Qed.

(** A dictionary allocated later does not disturb the ones already there. *)
Lemma Forall2_lookup_fresh (d : gmap positive ExecutionRecord) (rec : ExecutionRecord)
    (l : list positive) (es : list ExecutionRecord) :
  Forall2 (λ r e, d !! r = Some e) l es →
  Forall2 (λ r e, <[fresh (dom d) := rec]> d !! r = Some e) l es.
Proof.
  intros HF. eapply Forall2_impl; [exact HF|].
  intros r e Hr. simpl. rewrite lookup_insert_ne; [done|].
  intros <-. apply (is_fresh (dom d)). apply elem_of_dom. eauto.
Qed.

(** ** Execution *)

Lemma execute_shortcut_run (now id : str) (ctx : Dict) (node : ShortcutNode)
    (st : State) (l : list positive) :
  shortcuts (self st) !! id = Some node →
  log_refs st = Some l →
  let r := fresh (dom (dicts (heap st))) in
  let rec := mkExecutionRecord id (action node) (confidence node) now
               (flatten_citation <$> verified_citations node)
               (design_implications node) ctx in
  execute_shortcut now id ctx st =
    Some (Some r,
          mkState (self st)
                  (mkHeap (<[execution_log (self st) := l ++ [r]]> (lists (heap st)))
                          (<[r := rec]> (dicts (heap st))))).
Proof.
  intros Hn Hl. unfold log_refs in Hl.
  unfold execute_shortcut. rewrite bind_run. simpl. rewrite Hn.
  rewrite bind_run. simpl. rewrite bind_run. unfold list_append. simpl.
  by rewrite Hl.
Qed.

Lemma execute_shortcut_absent_run (now id : str) (ctx : Dict) (st : State) :
  shortcuts (self st) !! id = None →
  execute_shortcut now id ctx st = Some (None, st).
Proof.
  intros Hn. unfold execute_shortcut. rewrite bind_run. simpl. by rewrite Hn.
Qed.

Lemma execute_shortcut_logged (now id : str) (ctx : Dict) (node : ShortcutNode)
    (st : State) (es : list ExecutionRecord) :
  shortcuts (self st) !! id = Some node →
  log_entries st = Some es →
  ∃ r st',
    execute_shortcut now id ctx st = Some (Some r, st') ∧
    (r ∉ dom (dicts (heap st))) ∧
    dicts (heap st') = <[r := mkExecutionRecord id (action node) (confidence node) now
                               (flatten_citation <$> verified_citations node)
                               (design_implications node) ctx]> (dicts (heap st)) ∧
    log_refs st' = ((λ l, l ++ [r]) <$> log_refs st) ∧
    log_entries st' =
      Some (es ++ [mkExecutionRecord id (action node) (confidence node) now
                     (flatten_citation <$> verified_citations node)
                     (design_implications node) ctx]) ∧
    self st' = self st.
Proof.
  intros Hn Hes. pose proof Hes as (l & Hl & HF)%log_entries_Some.
  eexists _, _. split; [by apply execute_shortcut_run|].
  split; [apply is_fresh|]. split; [done|].
  assert (log_refs
            (mkState (self st)
               (mkHeap (<[execution_log (self st) := l ++ [fresh (dom (dicts (heap st)))]]>
                          (lists (heap st))) 
                       (<[fresh (dom (dicts (heap st))) :=
                            mkExecutionRecord id (action node) (confidence node) now
                              (flatten_citation <$> verified_citations node)
                              (design_implications node) ctx]> (dicts (heap st)))))
          = Some (l ++ [fresh (dom (dicts (heap st)))])) as Hl'.
  { unfold log_refs. simpl. apply lookup_insert_eq. }
  split; [by rewrite Hl', Hl|]. split; [|done].
  apply log_entries_Some. eexists. split; [exact Hl'|]. simpl.
  apply Forall2_app.
  - by apply Forall2_lookup_fresh.
  - constructor; [apply lookup_insert_eq|constructor].
Qed.

(** ** Reading the log and the schema *)

Lemma get_execution_log_run (st : State) (l : list positive) :
  log_refs st = Some l →
  get_execution_log st =
    Some (fresh (dom (lists (heap st))),
          mkState (self st)
                  (mkHeap (<[fresh (dom (lists (heap st))) := l]> (lists (heap st)))
                          (dicts (heap st)))).
Proof.
  intros Hl. unfold log_refs in Hl. unfold get_execution_log.
  rewrite bind_run. simpl. rewrite bind_run. unfold list_items. simpl.
  by rewrite Hl.
Qed.

Lemma export_schema_run (st : State) (l : list positive) :
  log_refs st = Some l →
  export_schema st =
    Some (mkSchema (schema_version (self st)) (view_of <$> shortcuts (self st)) (length l),
          st).
Proof.
  intros Hl. unfold log_refs in Hl. unfold export_schema.
  rewrite bind_run. simpl. rewrite bind_run. unfold list_items. simpl.
  by rewrite Hl.
Qed.

(** The log object is not the object [fresh] picks for a new list. *)
Lemma log_not_fresh (st : State) (l : list positive) :
  log_refs st = Some l → fresh (dom (lists (heap st))) ≠ execution_log (self st).
Proof.
  intros Hl Heq. apply (is_fresh (dom (lists (heap st)))).
  rewrite Heq. apply elem_of_dom. unfold log_refs in Hl. eauto.
Qed.

(** Writing a list object other than the log leaves the log as it was. *)
Lemma caller_set_items_log (r : positive) (items : list positive) (st : State) :
  r ≠ execution_log (self st) →
  log_refs (caller_set_items r items st) = log_refs st ∧
  log_entries (caller_set_items r items st) = log_entries st.
Proof.
  intros Hr.
  assert (log_refs (caller_set_items r items st) = log_refs st) as Hl.
  { unfold log_refs, caller_set_items. simpl. by rewrite lookup_insert_ne. }
  split; [done|]. unfold log_entries. by rewrite Hl.
Qed.

(** ** Histories *)

Lemma init_inv (h0 : Heap) : engine_inv (CometEngine_init h0).
Proof.
  split.
  - exists []. apply log_entries_Some. exists []. split; [|constructor].
    unfold log_refs, CometEngine_init. simpl. apply lookup_insert_eq.
  - split; [apply map_Forall_empty|done].
Qed.

Lemma init_log (h0 : Heap) : log_entries (CometEngine_init h0) = Some [].
Proof.
  apply log_entries_Some. exists []. split; [|constructor].
  unfold log_refs, CometEngine_init. simpl. apply lookup_insert_eq.
Qed.

Lemma perform_inv (c : Call) (st : State) (es : list ExecutionRecord) :
  engine_inv st → log_entries st = Some es →
  ∃ o st' es',
    perform c st = Some (o, st') ∧ engine_inv st' ∧
    log_entries st' = Some es' ∧
    length es' = length es + (if is_success o then 1 else 0).
Proof.
  intros (Hlog & Hreg & Hver) Hes. pose proof Hes as (l & Hl & HF)%log_entries_Some.
  destruct c as [node|now id ctx| |]; unfold perform; rewrite bind_run.
  - rewrite register_shortcut_run.
    exists (returned_bool (validate node)),
      (if validate node then registered node st else st), es.
    split; [done|]. destruct (validate node) eqn:Hv.
    + split; [|split; [exact Hes|simpl; lia]].
      split; [exact Hlog|]. split; [|exact Hver].
      simpl. apply map_Forall_insert_2; [|done].
      split; [done|]. by apply validate_valid_node.
    + split; [done|]. split; [done|simpl; lia].
  - destruct (shortcuts (self st) !! id) as [node|] eqn:Hn.
    + destruct (execute_shortcut_logged now id ctx node st es Hn Hes)
        as (r & st' & Hrun & _ & _ & _ & Hes' & Hself).
      rewrite Hrun. eexists _, _, _. split; [done|].
      split; [|split; [exact Hes'|by rewrite length_app; simpl]].
      split; [by rewrite Hes'|]. by rewrite Hself.
    + rewrite (execute_shortcut_absent_run _ _ _ _ Hn).
      eexists _, _, _. split; [done|]. split; [done|]. split; [done|simpl; lia].
  - rewrite (export_schema_run _ _ Hl).
    eexists _, _, _. split; [done|]. split; [done|]. split; [done|simpl; lia].
  - rewrite (get_execution_log_run _ _ Hl).
    pose proof (log_not_fresh _ _ Hl) as Hne.
    pose proof (caller_set_items_log _ l st Hne) as [_ Hes'].
    unfold caller_set_items in Hes'.
    eexists _, _, _. split; [done|].
    split; [|split; [by rewrite Hes'|simpl; lia]].
    split; [by rewrite Hes', Hes|done].
Qed.

Lemma run_inv (cs : list Call) (st : State) (es : list ExecutionRecord) :
  engine_inv st → log_entries st = Some es →
  ∃ os st' es',
    run cs st = Some (os, st') ∧ engine_inv st' ∧
    length os = length cs ∧
    log_entries st' = Some es' ∧
    length es' = length es + successful_executions os.
Proof.
  revert st es. induction cs as [|c cs IH]; intros st es Hinv Hes.
  - exists [], st, es. split; [done|]. split; [done|]. split; [done|].
    split; [done|]. unfold successful_executions. simpl. lia.
  - destruct (perform_inv c st es Hinv Hes) as (o & st1 & es1 & Hc & Hinv1 & Hes1 & Hlen1).
    destruct (IH st1 es1 Hinv1 Hes1) as (os & st2 & es2 & Hrun & Hinv2 & Hlos & Hes2 & Hlen2).
    exists (o :: os), st2, es2. simpl. rewrite bind_run, Hc, bind_run, Hrun.
    split; [done|]. split; [done|]. split; [by rewrite <- Hlos|]. split; [done|].
    rewrite Hlen2, Hlen1. unfold successful_executions.
    rewrite filter_cons. destruct (is_success o) eqn:Ho.
    + rewrite decide_True by done. simpl. lia.
    + rewrite decide_False by congruence. lia.
Qed.

Lemma reachable_inv (st : State) : reachable st → engine_inv st.
Proof.
  intros (h0 & cs & os & Hrun).
  destruct (run_inv cs _ [] (init_inv h0) (init_log h0)) as (os' & st' & es' & Hrun' & Hinv & _).
  rewrite Hrun in Hrun'. by injection Hrun' as _ <-.
Qed.

Lemma run_execute_calls (cs : list (str * str * Dict)) (st : State)
    (es : list ExecutionRecord) :
  log_entries st = Some es →
  Forall (λ c, is_Some (shortcuts (self st) !! c.1.2)) cs →
  ∃ rs recs st',
    run (execute_calls cs) st = Some ((λ r, returned_result (Some r)) <$> rs, st') ∧
    log_refs st' = ((λ l, l ++ rs) <$> log_refs st) ∧
    log_entries st' = Some (es ++ recs) ∧
    Forall2 (record_for (shortcuts (self st))) cs recs ∧
    self st' = self st.
Proof.
  revert st es. induction cs as [|c cs IH]; intros st es Hes Hreg.
  - exists [], [], st. rewrite app_nil_r. split; [done|].
    split; [|by repeat split; try constructor].
    destruct (log_refs st); simpl; [by rewrite app_nil_r|done].
  - apply Forall_cons in Hreg as [[node Hn] Hreg].
    destruct (execute_shortcut_logged c.1.1 c.1.2 c.2 node st es Hn Hes)
      as (r & st1 & Hrun & _ & _ & Hl1 & Hes1 & Hself1).
    rewrite <- Hself1 in Hreg.
    destruct (IH st1 _ Hes1 Hreg) as (rs & recs & st2 & Hrun2 & Hl2 & Hes2 & HF & Hself2).
    exists (r :: rs),
      (mkExecutionRecord c.1.2 (action node) (confidence node) c.1.1
         (flatten_citation <$> verified_citations node) (design_implications node) c.2
       :: recs), st2.
    split.
    { change (execute_calls (c :: cs))
        with (call_execute_shortcut c.1.1 c.1.2 c.2 :: execute_calls cs).
      cbn [run]. rewrite bind_run. cbn [perform]. rewrite bind_run, Hrun.
      rewrite ret_run, bind_run, Hrun2. done. }
    split.
    { rewrite Hl2, Hl1. destruct (log_refs st); simpl; [|done].
      by rewrite <- app_assoc. }
    split; [by rewrite Hes2, <- app_assoc|].
    split; [|by rewrite Hself2].
    constructor; [by exists node|]. by rewrite Hself1 in HF.
Qed.

(** C2: on a registered id, [execute_shortcut] returns the dictionary that
    carries the shortcut's id, action and confidence, the clock reading, the
    citations without their timestamps, the metadata bag and the caller's
    context.  That dictionary is a new object, it is the one item added at
    the end of the log, and the registry is as before.  A sequence of [n]
    such calls adds [n] entries, in call order, each with its own context. *)
Theorem execute_shortcut_registered (now id : str) (ctx : Dict) (node : ShortcutNode)
    (st : State) :
  reachable st →
  shortcuts (self st) !! id = Some node →
  ∃ es r st',
    log_entries st = Some es ∧
    execute_shortcut now id ctx st = Some (Some r, st') ∧
    res_node_id (expected_record now node ctx) = id ∧
    dicts (heap st) !! r = None ∧
    dicts (heap st') !! r = Some (expected_record now node ctx) ∧
    log_refs st' = ((λ l, l ++ [r]) <$> log_refs st) ∧
    log_entries st' = Some (es ++ [expected_record now node ctx]) ∧
    self st' = self st ∧
    ∀ calls : list (str * str * Dict),
      Forall (λ c, is_Some (shortcuts (self st) !! c.1.2)) calls →
      ∃ rs recs st'',
        run (execute_calls calls) st = Some ((λ r, returned_result (Some r)) <$> rs, st'') ∧
        log_refs st'' = ((λ l, l ++ rs) <$> log_refs st) ∧
        log_entries st'' = Some (es ++ recs) ∧
        length recs = length calls ∧
        Forall2 (record_for (shortcuts (self st))) calls recs ∧
        Forall2 (λ c rec, res_context rec = c.2) calls recs.
Proof.
  intros (Hlog & Hreg & _)%reachable_inv Hn.
  destruct Hlog as [es Hes]. exists es.
  destruct (Hreg _ _ Hn) as [Hid _].
  destruct (execute_shortcut_logged now id ctx node st es Hn Hes)
    as (r & st' & Hrun & Hfresh & Hd & Hl & Hes' & Hself).
  assert (mkExecutionRecord id (action node) (confidence node) now
            (flatten_citation <$> verified_citations node)
            (design_implications node) ctx = expected_record now node ctx) as Hrec.
  { unfold expected_record. by rewrite Hid. }
  rewrite Hrec in Hd, Hes'.
  exists r, st'. split; [done|]. split; [done|]. split; [done|].
  split; [by apply not_elem_of_dom|].
  split; [rewrite Hd; apply lookup_insert_eq|].
  split; [done|]. split; [done|]. split; [done|].
  intros calls Hcalls.
  destruct (run_execute_calls calls st es Hes Hcalls)
    as (rs & recs & st'' & Hrun' & Hl'' & Hes'' & HF & _).
  exists rs, recs, st''. split; [done|]. split; [done|]. split; [done|].
  split; [symmetry; by eapply Forall2_length|]. split; [done|].
  eapply Forall2_impl; [exact HF|]. by intros c rec (n & _ & ->).
Qed.

Lemma execute_shortcut_registered_witness :
  reachable engine_with_log_test ∧
  shortcuts (self engine_with_log_test) !! pystr "log_test" = Some log_test ∧
  ∃ rs recs st'',
    run (execute_calls [(pystr "t1", pystr "log_test", run_context 1);
                        (pystr "t2", pystr "log_test", run_context 2);
                        (pystr "t3", pystr "log_test", run_context 3)])
        engine_with_log_test = Some ((λ r, returned_result (Some r)) <$> rs, st'') ∧
    log_entries st'' = Some recs ∧
    length recs = 3 ∧
    res_context <$> recs = [run_context 1; run_context 2; run_context 3].
Proof.
  assert (shortcuts (self engine_with_log_test) !! pystr "log_test" = Some log_test)
    as Hn by (by vm_compute).
  assert (reachable engine_with_log_test) as Hreach.
  { exists empty_store, [call_register_shortcut log_test], [returned_bool true].
    reflexivity. }
  split; [exact Hreach|]. split; [exact Hn|].
  destruct (execute_shortcut_registered (pystr "t0") (pystr "log_test") (run_context 0)
              log_test engine_with_log_test Hreach Hn)
    as (es & r & st' & Hes & _ & _ & _ & _ & _ & _ & _ & Hcalls).
  assert (es = []) as -> by (vm_compute in Hes; congruence).
  destruct (Hcalls [(pystr "t1", pystr "log_test", run_context 1);
                    (pystr "t2", pystr "log_test", run_context 2);
                    (pystr "t3", pystr "log_test", run_context 3)])
    as (rs & recs & st'' & Hrun & _ & Hes'' & Hlen & _ & Hctx).
  { repeat constructor; by exists log_test. }
  exists rs, recs, st''. split; [done|]. split; [done|]. split; [done|].
  do 4 (destruct recs as [|? recs]; try discriminate Hlen).
  repeat match goal with H : Forall2 _ (_ :: _) (_ :: _) |- _ =>
    apply Forall2_cons in H as [? H] end.
  simpl in *. congruence.
Defined.

(** C3: on an id that is not a key of the registry, [execute_shortcut]
    returns [None]; no exception is raised, and the log, the registry and the
    rest of the store are as before. *)
Theorem execute_shortcut_missing (now id : str) (ctx : Dict) (st : State) :
  shortcuts (self st) !! id = None →
  execute_shortcut now id ctx st = Some (None, st) ∧
  ∀ r st', execute_shortcut now id ctx st = Some (r, st') →
    r = None ∧ log_refs st' = log_refs st ∧ log_entries st' = log_entries st ∧
    shortcuts (self st') = shortcuts (self st).
Proof.
  intros Hn. rewrite (execute_shortcut_absent_run _ _ _ _ Hn).
  split; [done|]. by intros r st' [= <- <-].
Qed.

Lemma execute_shortcut_missing_witness :
  execute_shortcut (pystr "2025-01-01T00:00:00") (pystr "nonexistent") []
    engine_with_opt_1 = Some (None, engine_with_opt_1).
Proof.
  apply (execute_shortcut_missing (pystr "2025-01-01T00:00:00") (pystr "nonexistent") []
           engine_with_opt_1).
  by vm_compute.
Defined.

(** C4: whatever calls of [register_shortcut], [execute_shortcut],
    [export_schema] and [get_execution_log] a fresh engine receives, the
    calls all return, and every node then found in the registry passes
    validation: non-empty [node_id], non-empty [pattern], [confidence]
    between 0.0 and 1.0. *)
Theorem registry_always_valid (h0 : Heap) (cs : list Call) :
  ∃ os st,
    run cs (CometEngine_init h0) = Some (os, st) ∧
    reachable st ∧
    ∀ id node, shortcuts (self st) !! id = Some node →
      valid_node node ∧ validate node = true ∧ node_id node = id.
Proof.
  destruct (run_inv cs _ [] (init_inv h0) (init_log h0))
    as (os & st & es & Hrun & (_ & Hreg & _) & _).
  exists os, st. split; [done|]. split; [by exists h0, cs, os|].
  intros id node Hn. destruct (Hreg _ _ Hn) as [Hid Hv].
  split; [done|]. split; [by apply validate_valid_node|done].
Qed.

(** C5: after any history of calls on a fresh engine, [export_schema]
    returns version "1.0.0", one reduced view per registered id (pattern,
    action, confidence, the number of citations, the metadata bag) and no
    view for any other id, and as [total_executions] the length of the log,
    which is the number of [execute_shortcut] calls that found their id.
    The state after the call is the state before it. *)
Theorem export_schema_spec (h0 : Heap) (cs : list Call) :
  ∃ os st l sch,
    run cs (CometEngine_init h0) = Some (os, st) ∧
    log_refs st = Some l ∧
    export_schema st = Some (sch, st) ∧
    exp_schema_version sch = pystr "1.0.0" ∧
    (∀ id node, shortcuts (self st) !! id = Some node →
       exp_shortcuts sch !! id =
         Some (mkShortcutView (pattern node) (action node) (confidence node)
                 (length (verified_citations node)) (design_implications node))) ∧
    (∀ id, shortcuts (self st) !! id = None → exp_shortcuts sch !! id = None) ∧
    exp_total_executions sch = length l ∧
    exp_total_executions sch = successful_executions os.
Proof.
  destruct (run_inv cs _ [] (init_inv h0) (init_log h0))
    as (os & st & es & Hrun & (_ & _ & Hver) & _ & Hes & Hlen).
  pose proof Hes as (l & Hl & _)%log_entries_Some.
  exists os, st, l, (mkSchema (schema_version (self st)) (view_of <$> shortcuts (self st))
                      (length l)).
  split; [done|]. split; [done|]. split; [by apply export_schema_run|].
  split; [done|]. simpl.
  split; [intros id node Hn; by rewrite lookup_fmap, Hn|].
  split; [intros id Hn; by rewrite lookup_fmap, Hn|].
  split; [done|].
  rewrite <- (log_entries_length _ _ _ Hl Hes). simpl in Hlen. lia.
Qed.

(** C7: [get_execution_log] returns a list object that is not the log and did
    not exist before, with the items of the log in the same order; the engine
    and the log are as before.  Whatever the caller then does to the items
    of that list, an [append] for one, the log keeps its items and entries,
    and the next [get_execution_log] returns the same items again. *)
Theorem get_execution_log_copy (st : State) (l : list positive) :
  log_refs st = Some l →
  ∃ r st',
    get_execution_log st = Some (r, st') ∧
    lists (heap st') !! r = Some l ∧
    r ≠ execution_log (self st) ∧
    lists (heap st) !! r = None ∧
    self st' = self st ∧
    log_refs st' = Some l ∧
    log_entries st' = log_entries st ∧
    (∀ items,
       log_refs (caller_set_items r items st') = Some l ∧
       log_entries (caller_set_items r items st') = log_entries st ∧
       ∃ r2 st2,
         get_execution_log (caller_set_items r items st') = Some (r2, st2) ∧
         lists (heap st2) !! r2 = Some l) ∧
    (∀ x,
       lists (heap (caller_append r x st')) !! r = Some (l ++ [x]) ∧
       log_refs (caller_append r x st') = Some l ∧
       ∃ r2 st2,
         get_execution_log (caller_append r x st') = Some (r2, st2) ∧
         lists (heap st2) !! r2 = Some l).
Proof.
  intros Hl. pose proof (log_not_fresh _ _ Hl) as Hne.
  set (r := fresh (dom (lists (heap st)))) in *.
  set (st' := mkState (self st) (mkHeap (<[r := l]> (lists (heap st))) (dicts (heap st)))).
  assert (lists (heap st') !! r = Some l) as Hr by apply lookup_insert_eq.
  assert (log_refs st' = Some l ∧ log_entries st' = log_entries st) as [Hl' Hes'].
  { destruct (caller_set_items_log r l st Hne) as [H1 H2]. by rewrite <- Hl. }
  assert (∀ items, log_refs (caller_set_items r items st') = Some l ∧
                   log_entries (caller_set_items r items st') = log_entries st ∧
                   ∃ r2 st2,
                     get_execution_log (caller_set_items r items st') = Some (r2, st2) ∧
                     lists (heap st2) !! r2 = Some l) as Hset.
  { intros items.
    destruct (caller_set_items_log r items st' Hne) as [H1 H2].
    rewrite Hl' in H1. rewrite Hes' in H2.
    split; [done|]. split; [done|].
    eexists _, _. split; [by apply get_execution_log_run|].
    simpl. apply lookup_insert_eq. }
  exists r, st'. split; [by apply get_execution_log_run|].
  split; [done|]. split; [done|].
  split; [apply not_elem_of_dom, is_fresh|].
  split; [done|]. split; [done|]. split; [done|]. split; [done|].
  intros x. unfold caller_append. rewrite Hr.
  split; [simpl; apply lookup_insert_eq|].
  destruct (Hset (l ++ [x])) as (H1 & _ & H3). by split.
Qed.

Lemma get_execution_log_copy_witness :
  log_refs engine_after_copy_test = Some [1%positive] ∧
  ∃ r st',
    get_execution_log engine_after_copy_test = Some (r, st') ∧
    lists (heap (caller_append r 7%positive st')) !! r = Some [1%positive; 7%positive] ∧
    log_refs (caller_append r 7%positive st') = Some [1%positive] ∧
    ∃ r2 st2,
      get_execution_log (caller_append r 7%positive st') = Some (r2, st2) ∧
      lists (heap st2) !! r2 = Some [1%positive].
Proof.
  assert (log_refs engine_after_copy_test = Some [1%positive]) as Hl by (by vm_compute).
  split; [exact Hl|].
  destruct (get_execution_log_copy engine_after_copy_test [1%positive] Hl)
    as (r & st' & Hrun & _ & _ & _ & _ & _ & _ & _ & Happ).
  destruct (Happ 7%positive) as (H1 & H2 & H3).
  exists r, st'. by repeat split.
Defined.

(** The copy is shallow.  Its items are the dictionaries of the log
    themselves, so a write to one of them, unlike a write to the list, shows
    in the log. *)
Example get_execution_log_shares_entries :
  ∃ r st' x,
    get_execution_log engine_after_copy_test = Some (r, st') ∧
    lists (heap st') !! r = Some [x] ∧
    log_refs st' = Some [x] ∧
    log_entries st' ≠ Some [tampered_entry] ∧
    log_entries (caller_set_dict x tampered_entry st') = Some [tampered_entry].
Proof.
  eexists _, _, _. split; [reflexivity|]. split; [by vm_compute|].
  split; [by vm_compute|]. split; [|by vm_compute].
  vm_compute. intros [=].
Qed.

(** ** Encoding and hashing *)

Lemma utf8_encode_char_scalar (c : N) :
  is_Some (utf8_encode_char c) ↔ is_scalar_value c.
Proof.
  unfold utf8_encode_char, is_surrogate, is_scalar_value.
  destruct (N.ltb_spec c 0x80); [split; [lia|eauto]|].
  destruct (N.ltb_spec c 0x800); [split; [lia|eauto]|].
  destruct (N.ltb_spec c 0x10000).
  - destruct (N.leb_spec 0xD800 c); simpl.
    + destruct (N.leb_spec c 0xDFFF); simpl.
      * split; [by intros [? [=]]|lia].
      * split; [lia|eauto].
    + split; [lia|eauto].
  - destruct (N.ltb_spec c 0x110000); [split; [lia|eauto]|].
    split; [by intros [? [=]]|lia].
Qed.

Lemma utf8_encode_from_cases (position : nat) (s : str) :
  (encodable s ∧ ∃ bytes, utf8_encode_from position s = Ok bytes) ∨
  (¬ encodable s ∧
   ∃ i c, s !! i = Some c ∧ ¬ is_scalar_value c ∧
          utf8_encode_from position s = Raise (UnicodeEncodeError (position + i))).
Proof.
  revert position. induction s as [|c s IH]; intros position.
  - left. split; [constructor|by exists []].
  - simpl. destruct (utf8_encode_char c) as [bs|] eqn:Hc.
    + assert (is_scalar_value c) as Hsc by (apply utf8_encode_char_scalar; eauto).
      destruct (IH (S position)) as [[Hs [rest ->]]|[Hs (i & c' & Hi & Hc' & ->)]].
      * left. split; [by constructor|eauto].
      * right. split; [by intros [_ ?]%Forall_cons|].
        exists (S i), c'. split; [done|]. split; [done|].
        do 2 f_equal. lia.
    + right.
      assert (¬ is_scalar_value c) as Hsc.
      { intros [? H]%utf8_encode_char_scalar. congruence. }
      split; [by intros [? _]%Forall_cons|].
      exists 0%nat, c. split; [done|]. split; [done|]. do 2 f_equal. lia.
Qed.

Lemma hexdigit_lower (x : N) (i : nat) :
  is_lower_hex (SHA256.hexdigit (N.land (N.shiftr x (4 * N.of_nat i)) 15)).
Proof.
  unfold is_lower_hex, SHA256.hexdigit.
  apply list_elem_of_In, nth_In.
  change 15%N with (N.ones 4). rewrite N.land_ones.
  pose proof (N.mod_lt (N.shiftr x (4 * N.of_nat i)) (2 ^ 4)) as H.
  set (d := (N.shiftr x (4 * N.of_nat i) mod 2 ^ 4)%N) in *.
  change (length SHA256.hexdigits) with 16%nat.
  change (2 ^ 4)%N with 16%N in H. lia.
Qed.

Lemma hex32_length (x : N) : length (SHA256.hex32 x) = 8%nat.
Proof. reflexivity. Qed.

Lemma hex32_lower (x : N) : Forall is_lower_hex (SHA256.hex32 x).
Proof.
  unfold SHA256.hex32. apply Forall_fmap, Forall_forall.
  intros i _. apply hexdigit_lower.
Qed.

Lemma hexdigest_length (bytes : list N) : length (SHA256.hexdigest bytes) = 64%nat.
Proof. unfold SHA256.hexdigest. by rewrite !length_app, !hex32_length. Qed.

Lemma hexdigest_lower (bytes : list N) : Forall is_lower_hex (SHA256.hexdigest bytes).
Proof. unfold SHA256.hexdigest. repeat apply Forall_app_2; apply hex32_lower. Qed.

Lemma sha256_hex_cases (content : str) :
  (encodable content ∧
   ∃ h, sha256_hex content = Ok h ∧ length h = 64%nat ∧ Forall is_lower_hex h) ∨
  (¬ encodable content ∧
   ∃ i c, content !! i = Some c ∧ ¬ is_scalar_value c ∧
          sha256_hex content = Raise (UnicodeEncodeError i)).
Proof.
  unfold sha256_hex, encode_utf8.
  destruct (utf8_encode_from_cases 0 content)
    as [[Hs [bytes ->]]|[Hs (i & c & Hi & Hc & ->)]].
  - left. split; [done|]. eexists. split; [done|].
    split; [apply hexdigest_length|apply hexdigest_lower].
  - right. split; [done|]. by exists i, c.
Qed.

(** Among the values of [str], the strict codec refuses exactly those with a
    surrogate code point. *)
Lemma encodable_iff (s : str) :
  encodable s ↔ is_str s ∧ Forall (λ c, is_surrogate c = false) s.
Proof.
  unfold encodable, is_str. rewrite <- Forall_and. apply Forall_iff. intros c.
  unfold is_scalar_value, is_surrogate.
  destruct (N.leb_spec 0xD800 c), (N.leb_spec c 0xDFFF); simpl.
  - split; [lia|by intros [_ ?]].
  - split; [intros; split; [lia|done]|intros [? _]; lia].
  - split; [intros; split; [lia|done]|intros [? _]; lia].
  - split; [intros; split; [lia|done]|intros [? _]; lia].
Qed.

(** C6, as the code has it: [generate_content_hash] depends on its argument
    alone, not on the engine or the store, and changes neither; on a string
    without surrogate code points it returns 64 characters, all of them
    among [0123456789abcdef]; on any other string the encoding step raises
    [UnicodeEncodeError] at the first surrogate. *)
Theorem generate_content_hash_spec (content : str) (st1 st2 : State) :
  ∃ res,
    generate_content_hash content st1 = Some (res, st1) ∧
    generate_content_hash content st2 = Some (res, st2) ∧
    (encodable content →
       ∃ h, res = Ok h ∧ length h = 64%nat ∧ Forall is_lower_hex h) ∧
    (¬ encodable content →
       ∃ i c, content !! i = Some c ∧ ¬ is_scalar_value c ∧
              res = Raise (UnicodeEncodeError i)).
Proof.
  exists (sha256_hex content). split; [done|]. split; [done|].
  destruct (sha256_hex_cases content) as [[Hs Hok]|[Hs Hraise]].
  - split; [done|]. by intros [].
  - split; [by intros ?|done].
Qed.

(** The claim of C6 fails on a string a Python program can hold: the lone
    surrogate [chr(0xD800)] makes [generate_content_hash] raise. *)
Lemma generate_content_hash_lone_surrogate :
  is_str lone_surrogate ∧
  generate_content_hash lone_surrogate (CometEngine_init empty_store) =
    Some (Raise (UnicodeEncodeError 0), CometEngine_init empty_store) ∧
  ¬ ∃ h st',
      generate_content_hash lone_surrogate (CometEngine_init empty_store) =
        Some (Ok h, st') ∧
      length h = 64%nat.
Proof.
  split; [by repeat constructor|]. split; [done|].
  by intros (h & st' & [=] & _).
Qed.

(** C9, as the code has it: on a content string without surrogate code
    points [create_citation] returns a citation whose [content_hash] is what
    [generate_content_hash] returns for that content, 64 characters long, and
    whose other fields are the arguments and the clock reading; the empty
    content is one such string.  On no content at all does the constructor's
    [ValueError] come out: the only exception is the [UnicodeEncodeError] of
    the encoding step, on a string with a surrogate. *)
Theorem create_citation_spec (now sid content m : str) (st : State) :
  (encodable content →
     ∃ c h,
       create_citation now sid content m = Ok c ∧
       generate_content_hash content st = Some (Ok h, st) ∧
       content_hash c = h ∧ length h = 64%nat ∧
       source_id c = sid ∧ timestamp c = now ∧ verification_method c = m) ∧
  (∀ msg, create_citation now sid content m ≠ Raise (ValueError msg)) ∧
  (¬ encodable content →
     ∃ i, create_citation now sid content m = Raise (UnicodeEncodeError i)) ∧
  (∃ c, create_citation now sid [] m = Ok c ∧
        content_hash c =
          pystr "e3b0c44298fc1c149afbf4c8996fb92427ae41e4649b934ca495991b7852b855").
Proof.
  assert (∀ h, length h = 64%nat →
            new_VerifiedCitation sid h now m = Ok (mkVerifiedCitation sid h now m)) as Hnew.
  { intros [|c h] Hlen; [discriminate Hlen|done]. }
  unfold create_citation, generate_content_hash.
  destruct (sha256_hex_cases content)
    as [[Hs (h & -> & Hlen & _)]|[Hs (i & c & _ & _ & ->)]].
  - rewrite (Hnew h Hlen).
    split; [intros _; by exists (mkVerifiedCitation sid h now m), h|].
    split; [done|]. split; [by intros ?|].
    eexists. split; [by vm_compute|by vm_compute].
  - split; [by intros ?|]. split; [done|]. split; [by exists i|].
    eexists. split; [by vm_compute|by vm_compute].
Qed.

(** The claim of C9 fails on the same string: [create_citation] raises. *)
Lemma create_citation_lone_surrogate :
  is_str lone_surrogate ∧
  create_citation (pystr "2025-01-01T00:00:00") (pystr "src") lone_surrogate
    (pystr "sha256") = Raise (UnicodeEncodeError 0) ∧
  ¬ ∃ c, create_citation (pystr "2025-01-01T00:00:00") (pystr "src") lone_surrogate
           (pystr "sha256") = Ok c.
Proof.
  split; [by repeat constructor|]. split; [done|]. by intros (c & [=]).
Qed.

(** [test_citation_creation] and [test_citation_immutability]. *)
Example create_citation_tests :
  (∃ c, create_citation_default (pystr "2025-01-01T00:00:00") (pystr "test_source")
          (pystr "test content") = Ok c ∧
        source_id c = pystr "test_source" ∧
        verification_method c = pystr "sha256" ∧
        length (content_hash c) = 64%nat) ∧
  (∃ c1 c2,
     create_citation_default (pystr "t1") (pystr "src1")
       (pystr "deterministic test content") = Ok c1 ∧
     create_citation_default (pystr "t2") (pystr "src2")
       (pystr "deterministic test content") = Ok c2 ∧
     content_hash c1 = content_hash c2).
Proof.
  split.
  - eexists. split; [by vm_compute|]. by vm_compute.
  - eexists _, _. split; [by vm_compute|]. split; [by vm_compute|]. done.
Qed.

(** ** The worked example of the specification

    Register [a]; execute it with context [{k: 1}]; execute an id that is
    not there; export. *)
Example worked_example :
  let a := mkShortcutNode (pystr "a") (pystr "p") (pystr "act") 0.9%float [] [] in
  let now := pystr "2025-01-01T00:00:00" in
  ∃ r sch st,
    run [call_register_shortcut a;
         call_execute_shortcut now (pystr "a") [(pystr "k", PyInt 1)];
         call_execute_shortcut now (pystr "missing") [];
         call_export_schema] (CometEngine_init empty_store) =
      Some ([returned_bool true; returned_result (Some r); returned_result None;
             returned_schema sch], st) ∧
    dicts (heap st) !! r =
      Some (mkExecutionRecord (pystr "a") (pystr "act") 0.9%float now [] []
              [(pystr "k", PyInt 1)]) ∧
    exp_total_executions sch = 1%nat ∧
    log_refs st = Some [r].
Proof.
  eexists _, _, _. split; [reflexivity|]. split; [by vm_compute|].
  split; [done|by vm_compute].
Qed.

(** * Further properties of the engine *)

(** ** Steps of a history *)

Lemma run_cons_inv (c : Call) (cs : list Call) (st st'' : State) (os : list Outcome) :
  run (c :: cs) st = Some (os, st'') →
  ∃ o st' os', perform c st = Some (o, st') ∧ run cs st' = Some (os', st'') ∧ os = o :: os'.
Proof.
  cbn [run]. rewrite bind_run.
  destruct (perform c st) as [[o st']|]; [|done].
  rewrite bind_run. destruct (run cs st') as [[os' st3]|] eqn:Hrun; [|done].
  rewrite ret_run. intros [= <- <-]. by exists o, st', os'.
Qed.

Lemma run_app (cs1 cs2 : list Call) (st : State) :
  run (cs1 ++ cs2) st =
    match run cs1 st with
    | Some (os1, st1) =>
        match run cs2 st1 with
        | Some (os2, st2) => Some (os1 ++ os2, st2)
        | None => None
        end
    | None => None
    end.
Proof.
  revert st. induction cs1 as [|c cs1 IH]; intros st.
  - simpl. by destruct (run cs2 st) as [[??]|].
  - cbn [app run]. rewrite !bind_run. destruct (perform c st) as [[o st']|]; [|done].
    rewrite !bind_run, IH. destruct (run cs1 st') as [[os1 st1]|]; [|done].
    rewrite !ret_run. by destruct (run cs2 st1) as [[??]|].
Qed.

(** The four ways a call leaves the state. *)
Lemma perform_shapes (c : Call) (st st' : State) (o : Outcome) (l : list positive) :
  log_refs st = Some l →
  perform c st = Some (o, st') →
  st' = st ∨
  (∃ node, validate node = true ∧ st' = registered node st) ∨
  (∃ now id ctx node,
     shortcuts (self st) !! id = Some node ∧
     st' = mkState (self st)
             (mkHeap (<[execution_log (self st) := l ++ [fresh (dom (dicts (heap st)))]]>
                        (lists (heap st)))
                     (<[fresh (dom (dicts (heap st))) :=
                          mkExecutionRecord id (action node) (confidence node) now
                            (flatten_citation <$> verified_citations node)
                            (design_implications node) ctx]> (dicts (heap st))))) ∨
  st' = mkState (self st)
          (mkHeap (<[fresh (dom (lists (heap st))) := l]> (lists (heap st)))
                  (dicts (heap st))).
Proof.
  intros Hl. destruct c as [node|now id ctx| |]; unfold perform; rewrite bind_run.
  - rewrite register_shortcut_run, ret_run. intros [= <- <-].
    destruct (validate node) eqn:Hv; [right; left; by exists node|by left].
  - destruct (shortcuts (self st) !! id) as [node|] eqn:Hn.
    + rewrite (execute_shortcut_run now id ctx node st l Hn Hl), ret_run.
      intros [= <- <-]. right; right; left. by exists now, id, ctx, node.
    + rewrite (execute_shortcut_absent_run _ _ _ _ Hn), ret_run.
      intros [= <- <-]. by left.
  - rewrite (export_schema_run _ _ Hl), ret_run. intros [= <- <-]. by left.
  - rewrite (get_execution_log_run _ _ Hl), ret_run. intros [= <- <-].
    by right; right; right.
Qed.

Lemma engine_inv_log (st : State) : engine_inv st → ∃ l, log_refs st = Some l.
Proof. intros [[es (l & Hl & _)%log_entries_Some] _]. eauto. Qed.

(** A property kept by every call is kept by every history. *)
Lemma run_preserves (P : State → Prop) :
  (∀ c st o st', engine_inv st → P st → perform c st = Some (o, st') → P st') →
  ∀ cs st os st', engine_inv st → P st → run cs st = Some (os, st') → P st'.
Proof.
  intros Hstep cs. induction cs as [|c cs IH]; intros st os st' Hinv HP Hrun.
  - simpl in Hrun. rewrite ret_run in Hrun. by injection Hrun as _ <-.
  - apply run_cons_inv in Hrun as (o & st1 & os' & Hc & Hrun & _).
    destruct Hinv as (Hlog & Hrest). destruct Hlog as [es Hes].
    destruct (perform_inv c st es (conj (ex_intro _ es Hes) Hrest) Hes)
      as (o' & st1' & _ & Hc' & Hinv1 & _).
    rewrite Hc in Hc'. injection Hc' as _ <-.
    eapply IH; [exact Hinv1| |exact Hrun].
    eapply Hstep; [|exact HP|exact Hc]. exact (conj (ex_intro _ es Hes) Hrest).
Qed.

(** ** Growth *)

Lemma grows_refl (st : State) (l : list positive) : log_refs st = Some l → grows st st.
Proof.
  intros Hl. repeat split; try done.
  exists l, []. by rewrite app_nil_r.
Qed.

Lemma grows_trans (st1 st2 st3 : State) : grows st1 st2 → grows st2 st3 → grows st1 st3.
Proof.
  intros (Hlog1 & Hdom1 & Hd1 & Hl1 & l & l1 & Hr1 & Hr2)
         (Hlog2 & Hdom2 & Hd2 & Hl2 & l' & l2 & Hr2' & Hr3).
  rewrite Hlog1 in Hl2.
  split; [congruence|]. split; [set_solver|].
  split; [by transitivity (dicts (heap st2))|].
  split; [by etransitivity|].
  exists l, (l1 ++ l2). split; [done|].
  rewrite Hr2 in Hr2'. injection Hr2' as <-. by rewrite app_assoc.
Qed.

Lemma perform_grows (c : Call) (st st' : State) (o : Outcome) :
  engine_inv st → perform c st = Some (o, st') → grows st st'.
Proof.
  intros Hinv Hc. destruct (engine_inv_log st Hinv) as [l Hl].
  destruct (perform_shapes c st st' o l Hl Hc)
    as [->|[(node & _ & ->)|[(now & id & ctx & node & Hn & ->)| ->]]].
  - by eapply grows_refl.
  - split; [done|]. split; [simpl; rewrite dom_insert_L; set_solver|].
    split; [done|]. split; [done|]. exists l, []. by rewrite app_nil_r.
  - split; [done|]. split; [done|]. simpl.
    split; [apply insert_subseteq, not_elem_of_dom, is_fresh|].
    split; [by rewrite delete_insert_eq|].
    exists l, [fresh (dom (dicts (heap st)))]. split; [done|].
    unfold log_refs. simpl. apply lookup_insert_eq.
  - pose proof (log_not_fresh _ _ Hl) as Hne.
    split; [done|]. split; [done|]. simpl. split; [done|].
    split.
    + rewrite delete_insert_ne by done. apply insert_subseteq.
      rewrite lookup_delete_ne by done. apply not_elem_of_dom, is_fresh.
    + exists l, []. rewrite app_nil_r. split; [done|].
      unfold log_refs. simpl. by rewrite lookup_insert_ne.
Qed.

Lemma run_grows (cs : list Call) (st st' : State) (os : list Outcome) :
  engine_inv st → run cs st = Some (os, st') → grows st st'.
Proof.
  intros Hinv Hrun. destruct (engine_inv_log st Hinv) as [l Hl].
  apply (run_preserves (grows st)) with cs st os; [|done|by eapply grows_refl|done].
  intros c st1 o st2 Hinv1 Hg Hc. eapply grows_trans; [exact Hg|].
  by eapply perform_grows.
Qed.

(** ** The items of the log *)

Lemma init_log_inv (h0 : Heap) : log_inv (CometEngine_init h0).
Proof.
  exists [], []. split; [|by repeat constructor].
  unfold log_refs, CometEngine_init. simpl. apply lookup_insert_eq.
Qed.

Lemma perform_log_inv (c : Call) (st st' : State) (o : Outcome) :
  engine_inv st → log_inv st → perform c st = Some (o, st') → log_inv st'.
Proof.
  intros (_ & Hreg & _) (l & es & Hl & HF & Hnd & Hes) Hc.
  destruct (perform_shapes c st st' o l Hl Hc)
    as [->|[(node & _ & ->)|[(now & id & ctx & node & Hn & ->)| ->]]].
  - by exists l, es.
  - exists l, es. split; [done|]. split; [done|]. split; [done|].
    eapply Forall_impl; [exact Hes|]. intros e (Hk & He). split; [|done].
    simpl. apply lookup_insert_is_Some.
    destruct (decide (node_id node = res_node_id e)); [by left|by right].
  - destruct (Hreg _ _ Hn) as [Hid (Hne & _ & Hc1)].
    exists (l ++ [fresh (dom (dicts (heap st)))]),
      (es ++ [mkExecutionRecord id (action node) (confidence node) now
                (flatten_citation <$> verified_citations node)
                (design_implications node) ctx]).
    split; [unfold log_refs; simpl; apply lookup_insert_eq|]. simpl.
    split.
    { apply Forall2_app; [by apply Forall2_lookup_fresh|].
      constructor; [apply lookup_insert_eq|constructor]. }
    split.
    { apply NoDup_app. split; [done|]. split; [|apply NoDup_singleton].
      intros r Hr ->%list_elem_of_singleton.
      apply (is_fresh (dom (dicts (heap st)))).
      apply list_elem_of_lookup in Hr as [i Hi].
      destruct (Forall2_lookup_l _ _ _ _ _ HF Hi) as (e & _ & He).
      apply elem_of_dom. eauto. }
    apply Forall_app. split; [done|]. constructor; [|constructor]. simpl.
    split; [eauto|]. split; [congruence|done].
  - pose proof (log_not_fresh _ _ Hl) as Hne.
    exists l, es. split; [|done].
    unfold log_refs. simpl. by rewrite lookup_insert_ne.
Qed.

Lemma run_log_inv (cs : list Call) (st st' : State) (os : list Outcome) :
  engine_inv st → log_inv st → run cs st = Some (os, st') → log_inv st'.
Proof.
  intros Hinv Hlog Hrun.
  apply (run_preserves log_inv) with cs st os; [|done|done|done].
  intros c st1 o st2 Hinv1 Hl1 Hc. by eapply perform_log_inv.
Qed.

(** Every history of a fresh engine runs to a state with all of the above. *)
Lemma run_fresh (h0 : Heap) (cs : list Call) :
  ∃ os st,
    run cs (CometEngine_init h0) = Some (os, st) ∧
    engine_inv st ∧ log_inv st ∧ grows (CometEngine_init h0) st.
Proof.
  destruct (run_inv cs _ [] (init_inv h0) (init_log h0))
    as (os & st & es & Hrun & Hinv & _).
  exists os, st. split; [done|]. split; [done|].
  split; [by eapply run_log_inv; [apply init_inv|apply init_log_inv|]|].
  by eapply run_grows; [apply init_inv|].
Qed.

Lemma run_from (cs : list Call) (st : State) :
  engine_inv st → log_inv st →
  ∃ os st', run cs st = Some (os, st') ∧ engine_inv st' ∧ log_inv st' ∧ grows st st'.
Proof.
  intros Hinv Hlog. pose proof Hinv as ([es Hes] & _).
  destruct (run_inv cs st es Hinv Hes) as (os & st' & es' & Hrun & Hinv' & _).
  exists os, st'. split; [done|]. split; [done|].
  split; [exact (run_log_inv cs st st' os Hinv Hlog Hrun)|].
  exact (run_grows cs st st' os Hinv Hrun).
Qed.

Lemma grows_entries (st st' : State) (es : list ExecutionRecord) :
  grows st st' → log_entries st = Some es → is_Some (log_entries st') →
  ∃ new, log_entries st' = Some (es ++ new).
Proof.
  intros (_ & _ & Hd & _ & l & l' & Hl & Hl') (l0 & Hl0 & HF)%log_entries_Some [es' Hes'].
  rewrite Hl in Hl0. injection Hl0 as <-.
  pose proof Hes' as (l1 & Hl1 & HF')%log_entries_Some.
  rewrite Hl' in Hl1. injection Hl1 as <-.
  apply Forall2_app_inv_l in HF' as (es1 & new & HF1 & _ & ->).
  exists new. rewrite Hes'. do 2 f_equal.
  apply list_eq. intros i.
  destruct (l !! i) as [r|] eqn:Hr.
  - destruct (Forall2_lookup_l _ _ _ _ _ HF Hr) as (e & -> & He).
    destruct (Forall2_lookup_l _ _ _ _ _ HF1 Hr) as (e1 & -> & He1).
    eapply lookup_weaken in He; [|exact Hd]. congruence.
  - apply lookup_ge_None in Hr.
    rewrite (lookup_ge_None_2 es1), (lookup_ge_None_2 es); [done| |].
    + by rewrite <- (Forall2_length _ _ _ HF).
    + by rewrite <- (Forall2_length _ _ _ HF1).
Qed.

(** ** Registration, composed *)

(** X1: a valid registration replaces, without merging, whatever the id held:
    the state is the one the engine would be in had the earlier registration
    under that id never been made. *)
Theorem register_shortcut_last_write_wins (n1 n2 : ShortcutNode) (st : State) :
  valid_node n2 →
  node_id n1 = node_id n2 →
  run [call_register_shortcut n1; call_register_shortcut n2] st =
    Some ([returned_bool (validate n1); returned_bool true], registered n2 st) ∧
  run [call_register_shortcut n2] st = Some ([returned_bool true], registered n2 st).
Proof.
  intros Hv%validate_valid_node Hid.
  cbn [run perform]. rewrite !bind_run, !register_shortcut_run, Hv.
  split; [|done].
  rewrite !ret_run, !bind_run, register_shortcut_run, Hv. simpl.
  destruct (validate n1); [|done].
  unfold registered. simpl. by rewrite Hid, insert_insert_eq.
Qed.

Lemma register_shortcut_last_write_wins_witness :
  run [call_register_shortcut log_test; call_register_shortcut log_test_v2]
      (CometEngine_init empty_store) =
    Some ([returned_bool true; returned_bool true],
          registered log_test_v2 (CometEngine_init empty_store)).
Proof.
  destruct (register_shortcut_last_write_wins log_test log_test_v2
              (CometEngine_init empty_store)) as [H _].
  - by vm_compute.
  - reflexivity.
  - exact H.
Defined.

Lemma run_register_then (node : ShortcutNode) (c : Call) (st st' : State) (o : Outcome) :
  validate node = true →
  perform c (registered node st) = Some (o, st') →
  run [call_register_shortcut node; c] st = Some ([returned_bool true; o], st').
Proof.
  intros Hv Hc. cbn [run]. rewrite bind_run. cbn [perform].
  rewrite bind_run, register_shortcut_run, Hv, ret_run.
  by rewrite !bind_run, Hc.
Qed.

(** X2: a node that passes validation can be executed at once under its own
    id: the call returns a new dictionary with the fields of that node, and
    the log gains it as its last entry. *)
Theorem register_then_execute (node : ShortcutNode) (now : str) (ctx : Dict)
    (st : State) (es : list ExecutionRecord) :
  valid_node node →
  log_entries st = Some es →
  ∃ r st',
    run [call_register_shortcut node; call_execute_shortcut now (node_id node) ctx] st =
      Some ([returned_bool true; returned_result (Some r)], st') ∧
    dicts (heap st) !! r = None ∧
    dicts (heap st') !! r = Some (expected_record now node ctx) ∧
    log_entries st' = Some (es ++ [expected_record now node ctx]) ∧
    shortcuts (self st') = <[node_id node := node]> (shortcuts (self st)).
Proof.
  intros Hv%validate_valid_node Hes.
  assert (shortcuts (self (registered node st)) !! node_id node = Some node) as Hn
    by apply lookup_insert_eq.
  destruct (execute_shortcut_logged now (node_id node) ctx node (registered node st) es Hn Hes)
    as (r & st' & Hrun & Hfresh & Hd & _ & Hes' & Hself).
  exists r, st'. split.
  { apply run_register_then; [done|]. cbn [perform]. by rewrite bind_run, Hrun. }
  split; [by apply not_elem_of_dom|].
  split; [rewrite Hd; apply lookup_insert_eq|].
  split; [done|]. by rewrite Hself.
Qed.

Lemma register_then_execute_witness :
  ∃ r st',
    run [call_register_shortcut opt_1;
         call_execute_shortcut (pystr "2025-01-01T00:00:00") (pystr "opt_1")
           [(pystr "user", PyStr (pystr "test_user"))]]
        (CometEngine_init empty_store) =
      Some ([returned_bool true; returned_result (Some r)], st') ∧
    log_entries st' =
      Some [expected_record (pystr "2025-01-01T00:00:00") opt_1
              [(pystr "user", PyStr (pystr "test_user"))]].
Proof.
  destruct (register_then_execute opt_1 (pystr "2025-01-01T00:00:00")
              [(pystr "user", PyStr (pystr "test_user"))]
              (CometEngine_init empty_store) [])
    as (r & st' & Hrun & _ & _ & Hes & _).
  - by vm_compute.
  - by vm_compute.
  - exists r, st'. by split.
Defined.

(** ** Histories *)

(** X3: the log is append-only.  Along any history the entries already in
    the log stay where they are and as they are; the entries added are as
    many as the [execute_shortcut] calls that found their id; and every
    dictionary handed out earlier still reads the same. *)
Theorem log_append_only (h0 : Heap) (cs1 cs2 : list Call) :
  ∃ os1 st1 os2 st2 es new,
    run cs1 (CometEngine_init h0) = Some (os1, st1) ∧
    run cs2 st1 = Some (os2, st2) ∧
    log_entries st1 = Some es ∧
    log_entries st2 = Some (es ++ new) ∧
    length new = successful_executions os2 ∧
    dicts (heap st1) ⊆ dicts (heap st2).
Proof.
  destruct (run_fresh h0 cs1) as (os1 & st1 & Hrun1 & Hinv1 & Hlog1 & _).
  pose proof Hinv1 as ([es Hes] & _).
  destruct (run_inv cs2 st1 es Hinv1 Hes)
    as (os2 & st2 & es2 & Hrun2 & Hinv2 & _ & Hes2 & Hlen).
  pose proof (run_grows cs2 st1 st2 os2 Hinv1 Hrun2) as Hg.
  destruct (grows_entries st1 st2 es Hg Hes) as [new Hnew]; [by rewrite Hes2|].
  exists os1, st1, os2, st2, es, new.
  split; [done|]. split; [done|]. split; [done|]. split; [done|].
  split; [|apply Hg].
  rewrite Hes2 in Hnew. injection Hnew as ->. rewrite length_app in Hlen. lia.
Qed.

(** X4: no call removes an id.  An id found in the registry at some point of
    a history is found at every later point, and [execute_shortcut] on it
    returns a dictionary there. *)
Theorem registered_ids_persist (h0 : Heap) (cs1 cs2 : list Call) :
  ∃ os1 st1 os2 st2,
    run cs1 (CometEngine_init h0) = Some (os1, st1) ∧
    run cs2 st1 = Some (os2, st2) ∧
    ∀ id, is_Some (shortcuts (self st1) !! id) →
      is_Some (shortcuts (self st2) !! id) ∧
      ∀ now ctx, ∃ r st3, execute_shortcut now id ctx st2 = Some (Some r, st3).
Proof.
  destruct (run_fresh h0 cs1) as (os1 & st1 & Hrun1 & Hinv1 & Hlog1 & _).
  destruct (run_from cs2 st1 Hinv1 Hlog1) as (os2 & st2 & Hrun2 & Hinv2 & _ & Hg).
  exists os1, st1, os2, st2. split; [done|]. split; [done|].
  intros id Hid%elem_of_dom.
  destruct Hg as (_ & Hdom & _).
  assert (is_Some (shortcuts (self st2) !! id)) as [node Hn]
    by (apply elem_of_dom; set_solver).
  split; [eauto|]. intros now ctx.
  destruct Hinv2 as ([es2 Hes2] & _).
  destruct (execute_shortcut_logged now id ctx node st2 es2 Hn Hes2)
    as (r & st3 & Hrun3 & _).
  eauto.
Qed.

Lemma perform_log_refs (c : Call) (st st' : State) (o : Outcome) (l : list positive) :
  log_refs st = Some l →
  perform c st = Some (o, st') →
  log_refs st' = Some (l ++ returned_results [o]).
Proof.
  intros Hl. destruct c as [node|now id ctx| |]; unfold perform; rewrite bind_run.
  - rewrite register_shortcut_run, ret_run. intros [= <- <-].
    simpl. rewrite app_nil_r. by destruct (validate node).
  - destruct (shortcuts (self st) !! id) as [node|] eqn:Hn.
    + rewrite (execute_shortcut_run now id ctx node st l Hn Hl), ret_run.
      intros [= <- <-]. unfold log_refs. simpl. apply lookup_insert_eq.
    + rewrite (execute_shortcut_absent_run _ _ _ _ Hn), ret_run.
      intros [= <- <-]. simpl. by rewrite app_nil_r.
  - rewrite (export_schema_run _ _ Hl), ret_run. intros [= <- <-].
    simpl. by rewrite app_nil_r.
  - rewrite (get_execution_log_run _ _ Hl), ret_run. intros [= <- <-].
    simpl. rewrite app_nil_r. unfold log_refs. simpl.
    rewrite lookup_insert_ne; [done|]. by apply log_not_fresh with l.
Qed.

Lemma run_log_refs (cs : list Call) (st st' : State) (os : list Outcome)
    (l : list positive) :
  log_refs st = Some l →
  run cs st = Some (os, st') →
  log_refs st' = Some (l ++ returned_results os).
Proof.
  revert st os l. induction cs as [|c cs IH]; intros st os l Hl Hrun.
  - simpl in Hrun. injection Hrun as <- <-. simpl. by rewrite app_nil_r.
  - apply run_cons_inv in Hrun as (o & st1 & os' & Hc & Hrun & ->).
    pose proof (perform_log_refs c st st1 o l Hl Hc) as Hl1.
    rewrite (IH st1 os' _ Hl1 Hrun). f_equal.
    change (o :: os') with ([o] ++ os').
    unfold returned_results. by rewrite omap_app, app_assoc.
Qed.

(** X5: the log of an engine is the sequence of the dictionaries that its
    [execute_shortcut] calls returned, in call order, whatever other calls
    came in between; the calls that returned [None] left no trace.  No two
    executions share a dictionary. *)
Theorem log_is_returned_results (h0 : Heap) (cs : list Call) :
  ∃ os st,
    run cs (CometEngine_init h0) = Some (os, st) ∧
    log_refs st = Some (returned_results os) ∧
    NoDup (returned_results os) ∧
    Forall (λ r, is_Some (dicts (heap st) !! r)) (returned_results os).
Proof.
  destruct (run_fresh h0 cs) as (os & st & Hrun & _ & (l & es & Hl & HF & Hnd & _) & _).
  assert (log_refs (CometEngine_init h0) = Some []) as Hl0.
  { unfold log_refs, CometEngine_init. simpl. apply lookup_insert_eq. }
  pose proof (run_log_refs cs _ _ _ _ Hl0 Hrun) as Hl'. simpl in Hl'.
  rewrite Hl in Hl'. injection Hl' as ->.
  exists os, st. split; [done|]. split; [done|]. split; [done|].
  apply Forall_forall. intros r [i Hi]%list_elem_of_lookup.
  destruct (Forall2_lookup_l _ _ _ _ _ HF Hi) as (e & _ & He). eauto.
Qed.

(** X6: every entry of the log was made for an id that is still registered
    and is not the empty string, and carries a confidence between 0.0 and
    1.0, also after the id has been registered again with other fields. *)
Theorem log_entries_valid (h0 : Heap) (cs : list Call) :
  ∃ os st es,
    run cs (CometEngine_init h0) = Some (os, st) ∧
    log_entries st = Some es ∧
    Forall (λ e, is_Some (shortcuts (self st) !! res_node_id e) ∧
                 res_node_id e ≠ [] ∧
                 in_unit_interval (res_confidence e)) es.
Proof.
  destruct (run_fresh h0 cs) as (os & st & Hrun & _ & (l & es & Hl & HF & _ & Hes) & _).
  exists os, st, es. split; [done|]. split; [|done].
  apply log_entries_Some. by exists l.
Qed.

(** ** Snapshots and the store *)

Lemma get_execution_log_keeps (st : State) (l : list positive) :
  engine_inv st → log_inv st → log_refs st = Some l →
  ∃ r st',
    get_execution_log st = Some (r, st') ∧
    engine_inv st' ∧ log_inv st' ∧
    lists (heap st) !! r = None ∧
    lists (heap st') !! r = Some l ∧
    r ≠ execution_log (self st') ∧
    self st' = self st ∧
    dicts (heap st') = dicts (heap st) ∧
    log_refs st' = Some l.
Proof.
  intros Hinv Hlog Hl. pose proof (get_execution_log_run st l Hl) as Hrun.
  pose proof (log_not_fresh st l Hl) as Hne.
  eexists _, _. split; [exact Hrun|].
  assert (perform call_get_execution_log st =
            Some (returned_list (fresh (dom (lists (heap st)))),
                  mkState (self st)
                    (mkHeap (<[fresh (dom (lists (heap st))) := l]> (lists (heap st)))
                            (dicts (heap st))))) as Hc.
  { unfold perform. by rewrite bind_run, Hrun. }
  pose proof Hinv as ([es Hes] & _).
  destruct (perform_inv call_get_execution_log st es Hinv Hes)
    as (o & st1 & _ & Hc' & Hinv1 & _).
  rewrite Hc in Hc'. injection Hc' as _ <-.
  split; [done|].
  split; [exact (perform_log_inv _ _ _ _ Hinv Hlog Hc)|].
  split; [apply not_elem_of_dom, is_fresh|].
  split; [simpl; apply lookup_insert_eq|]. split; [done|].
  split; [done|]. split; [done|].
  unfold log_refs. simpl. by rewrite lookup_insert_ne.
Qed.

(** X7: a snapshot is not a view.  The list returned by [get_execution_log]
    keeps the items it was returned with, and they read the same, however
    many calls the engine serves afterwards; the log meanwhile goes on from
    those items. *)
Theorem snapshot_unchanged_by_later_calls (h0 : Heap) (cs1 cs2 : list Call) :
  ∃ os1 st1 r st2 os2 st3 l es,
    run cs1 (CometEngine_init h0) = Some (os1, st1) ∧
    get_execution_log st1 = Some (r, st2) ∧
    run cs2 st2 = Some (os2, st3) ∧
    lists (heap st2) !! r = Some l ∧
    mapM (λ x, dicts (heap st2) !! x) l = Some es ∧
    lists (heap st3) !! r = Some l ∧
    mapM (λ x, dicts (heap st3) !! x) l = Some es ∧
    log_refs st3 = Some (l ++ returned_results os2).
Proof.
  destruct (run_fresh h0 cs1) as (os1 & st1 & Hrun1 & Hinv1 & Hlog1 & _).
  pose proof Hlog1 as (l & es & Hl & HF & _).
  destruct (get_execution_log_keeps st1 l Hinv1 Hlog1 Hl)
    as (r & st2 & Hget & Hinv2 & Hlog2 & _ & Hr & Hne & _ & Hd & Hl2).
  destruct (run_from cs2 st2 Hinv2 Hlog2) as (os2 & st3 & Hrun2 & _ & _ & Hg).
  destruct Hg as (_ & _ & Hdicts & Hlists & _).
  exists os1, st1, r, st2, os2, st3, l, es.
  split; [done|]. split; [done|]. split; [done|]. split; [done|].
  split; [apply mapM_Some; by rewrite Hd|].
  split.
  { assert (delete (execution_log (self st2)) (lists (heap st2)) !! r = Some l) as H
      by (by rewrite lookup_delete_ne).
    eapply lookup_weaken in H; [|exact Hlists].
    by rewrite lookup_delete_ne in H. }
  split; [|by eapply run_log_refs].
  apply mapM_Some. eapply Forall2_impl; [exact HF|].
  intros x e Hx. simpl. eapply lookup_weaken; [|exact Hdicts]. by rewrite Hd.
Qed.

(** X8: each [get_execution_log] makes its own list.  Two snapshots taken in
    a row are different objects, neither is the log nor a list that was in
    the store before, and both hold the items of the log. *)
Theorem snapshots_are_distinct (h0 : Heap) (cs : list Call) :
  ∃ os st r1 st1 r2 st2 l,
    run cs (CometEngine_init h0) = Some (os, st) ∧
    get_execution_log st = Some (r1, st1) ∧
    get_execution_log st1 = Some (r2, st2) ∧
    r1 ≠ r2 ∧
    r1 ≠ execution_log (self st) ∧ r2 ≠ execution_log (self st) ∧
    lists (heap st) !! r1 = None ∧ lists (heap st) !! r2 = None ∧
    lists (heap st2) !! r1 = Some l ∧ lists (heap st2) !! r2 = Some l ∧
    log_refs st2 = Some l.
Proof.
  destruct (run_fresh h0 cs) as (os & st & Hrun & Hinv & Hlog & _).
  pose proof Hlog as (l & es & Hl & _).
  destruct (get_execution_log_keeps st l Hinv Hlog Hl)
    as (r1 & st1 & Hget1 & Hinv1 & Hlog1 & Hnew1 & Hr1 & Hne1 & Hself1 & _ & Hl1).
  destruct (get_execution_log_keeps st1 l Hinv1 Hlog1 Hl1)
    as (r2 & st2 & Hget2 & _ & _ & Hnew2 & Hr2 & Hne2 & Hself2 & _ & Hl2).
  assert (r1 ≠ r2) as Hne by congruence.
  exists os, st, r1, st1, r2, st2, l.
  split; [done|]. split; [done|]. split; [done|]. split; [done|].
  split; [congruence|]. split; [congruence|]. split; [done|].
  rewrite (get_execution_log_run st l Hl) in Hget1. injection Hget1 as Hr1' Hst1.
  rewrite (get_execution_log_run st1 l Hl1) in Hget2. injection Hget2 as Hr2' Hst2.
  split.
  { rewrite <- Hst1 in Hnew2. simpl in Hnew2.
    rewrite lookup_insert_ne in Hnew2; [done|]. by rewrite Hr1'. }
  split; [|by split].
  rewrite <- Hst2. simpl. rewrite lookup_insert_ne; [done|]. rewrite Hr2'. congruence.
Qed.

(** X9: an engine writes to no object it found in the store.  The lists and
    dictionaries that were there when the engine was created, the log of
    another engine among them, are as they were after any history, and the
    new engine's log is not one of them. *)
Theorem engine_leaves_store_objects (h0 : Heap) (cs : list Call) :
  ∃ os st,
    run cs (CometEngine_init h0) = Some (os, st) ∧
    lists h0 !! execution_log (self st) = None ∧
    lists h0 ⊆ lists (heap st) ∧
    dicts h0 ⊆ dicts (heap st).
Proof.
  destruct (run_fresh h0 cs) as (os & st & Hrun & _ & _ & Hg).
  destruct Hg as (Hlog & _ & Hdicts & Hlists & _).
  assert (lists h0 !! fresh (dom (lists h0)) = None) as Hnew
    by apply not_elem_of_dom, is_fresh.
  exists os, st. split; [done|]. rewrite Hlog. split; [done|]. split; [|done].
  unfold CometEngine_init in Hlists. simpl in Hlists.
  rewrite delete_insert_eq, (delete_id _ _ Hnew) in Hlists.
  etransitivity; [exact Hlists|]. apply delete_subseteq.
Qed.

(** ** Export, log and execution together *)

(** X10: [total_executions] is the length of the list [get_execution_log]
    returns, and it is counted on the log, not on the copy: after the caller
    has rewritten the copy in any way, [export_schema] returns the same
    schema. *)
Theorem export_counts_the_log (h0 : Heap) (cs : list Call) (items : list positive) :
  ∃ os st r st1 l sch,
    run cs (CometEngine_init h0) = Some (os, st) ∧
    get_execution_log st = Some (r, st1) ∧
    lists (heap st1) !! r = Some l ∧
    export_schema st1 = Some (sch, st1) ∧
    exp_total_executions sch = length l ∧
    export_schema (caller_set_items r items st1) =
      Some (sch, caller_set_items r items st1).
Proof.
  destruct (run_fresh h0 cs) as (os & st & Hrun & Hinv & Hlog & _).
  pose proof Hlog as (l & es & Hl & _).
  destruct (get_execution_log_keeps st l Hinv Hlog Hl)
    as (r & st1 & Hget & _ & _ & _ & Hr & Hne & _ & _ & Hl1).
  destruct (caller_set_items_log r items st1 Hne) as [Hl2 _]. rewrite Hl1 in Hl2.
  exists os, st, r, st1, l. eexists.
  split; [done|]. split; [done|]. split; [done|].
  split; [by apply export_schema_run|]. split; [done|].
  by rewrite (export_schema_run _ l Hl2).
Qed.

(** X11: the empty string is never an id of the registry, so
    [execute_shortcut] on it returns [None] at every point of every
    history. *)
Theorem empty_id_never_executes (h0 : Heap) (cs : list Call) (now : str) (ctx : Dict) :
  ∃ os st,
    run cs (CometEngine_init h0) = Some (os, st) ∧
    shortcuts (self st) !! [] = None ∧
    execute_shortcut now [] ctx st = Some (None, st).
Proof.
  destruct (run_fresh h0 cs) as (os & st & Hrun & (_ & Hreg & _) & _).
  assert (shortcuts (self st) !! [] = None) as Hn.
  { destruct (shortcuts (self st) !! []) as [node|] eqn:Hn; [|done].
    destruct (Hreg _ _ Hn) as [Hid [Hne _]]. congruence. }
  exists os, st. split; [done|]. split; [done|].
  by apply execute_shortcut_absent_run.
Qed.

(** X12: [export_schema] and [execute_shortcut] read the same registry.  At
    any point of a history, an id has a view in the exported schema exactly
    if [execute_shortcut] returns a dictionary for it, and then the view and
    the dictionary show the same action, confidence and metadata bag, and
    the view counts the citations the dictionary lists. *)
Theorem export_matches_execution (h0 : Heap) (cs : list Call)
    (now id : str) (ctx : Dict) :
  ∃ os st sch,
    run cs (CometEngine_init h0) = Some (os, st) ∧
    export_schema st = Some (sch, st) ∧
    ((exp_shortcuts sch !! id = None ∧
      execute_shortcut now id ctx st = Some (None, st)) ∨
     (∃ v r st' rec,
        exp_shortcuts sch !! id = Some v ∧
        execute_shortcut now id ctx st = Some (Some r, st') ∧
        dicts (heap st') !! r = Some rec ∧
        res_node_id rec = id ∧
        view_action v = res_action rec ∧
        view_confidence v = res_confidence rec ∧
        view_verified_citations v = length (res_verified_citations rec) ∧
        view_design_implications v = res_design_implications rec)).
Proof.
  destruct (run_fresh h0 cs) as (os & st & Hrun & ([es Hes] & _) & _).
  pose proof Hes as (l & Hl & _)%log_entries_Some.
  exists os, st. eexists. split; [done|]. split; [by apply export_schema_run|]. simpl.
  rewrite lookup_fmap.
  destruct (shortcuts (self st) !! id) as [node|] eqn:Hn; simpl.
  - right.
    destruct (execute_shortcut_logged now id ctx node st es Hn Hes)
      as (r & st' & Hexec & _ & Hd & _).
    exists (view_of node), r, st'. eexists. split; [done|]. split; [done|].
    split; [rewrite Hd; apply lookup_insert_eq|].
    simpl. by rewrite length_fmap.
  - left. split; [done|]. by apply execute_shortcut_absent_run.
Qed.

(** X13: a citation built by [create_citation] comes out of an execution
    with its source id, its method and the digest of its content, and without
    its timestamp: register a node that cites it, execute the node, and the
    returned dictionary lists exactly that. *)
Theorem created_citation_reaches_record
    (t sid content m : str) (cit : VerifiedCitation)
    (id pat act : str) (c : float) (bag : Dict)
    (now : str) (ctx : Dict) (st : State) (es : list ExecutionRecord) :
  create_citation t sid content m = Ok cit →
  valid_node (mkShortcutNode id pat act c [cit] bag) →
  log_entries st = Some es →
  ∃ h r st' rec,
    sha256_hex content = Ok h ∧
    length h = 64%nat ∧
    Forall is_lower_hex h ∧
    run [call_register_shortcut (mkShortcutNode id pat act c [cit] bag);
         call_execute_shortcut now id ctx] st =
      Some ([returned_bool true; returned_result (Some r)], st') ∧
    dicts (heap st') !! r = Some rec ∧
    res_verified_citations rec = [mkCitationEntry sid h m].
Proof.
  intros Hcit Hv%validate_valid_node Hes.
  unfold create_citation in Hcit.
  destruct (sha256_hex_cases content)
    as [[_ (h & Hh & Hlen & Hhex)]|[_ (i & x & _ & _ & Hh)]];
    rewrite Hh in Hcit; [|done].
  destruct h as [|x h]; [done|]. injection Hcit as <-.
  set (node := mkShortcutNode id pat act c
                 [mkVerifiedCitation sid (x :: h) t m] bag) in *.
  assert (shortcuts (self (registered node st)) !! id = Some node) as Hn
    by apply lookup_insert_eq.
  destruct (execute_shortcut_logged now id ctx node (registered node st) es Hn Hes)
    as (r & st' & Hrun & _ & Hd & _).
  exists (x :: h), r, st'. eexists.
  split; [done|]. split; [done|]. split; [done|].
  split.
  { apply run_register_then; [done|]. cbn [perform]. by rewrite bind_run, Hrun. }
  split; [rewrite Hd; apply lookup_insert_eq|]. reflexivity.
Qed.

Lemma created_citation_reaches_record_witness :
  ∃ r st' rec,
    run [call_register_shortcut opt_1;
         call_execute_shortcut (pystr "2025-01-02T00:00:00") (pystr "opt_1") []]
        (CometEngine_init empty_store) =
      Some ([returned_bool true; returned_result (Some r)], st') ∧
    dicts (heap st') !! r = Some rec ∧
    res_verified_citations rec =
      [mkCitationEntry (pystr "doc_1")
         (pystr "95fe8f54042057d36898b7e1390cd4902a7edacd00ac2e8f9eebfa241fe37f16")
         (pystr "sha256")].
Proof.
  destruct (created_citation_reaches_record
              (pystr "2025-01-01T00:00:00") (pystr "doc_1") (pystr "optimization pattern")
              (pystr "sha256") doc_1
              (pystr "opt_1") (pystr "optimize") (pystr "execute_optimization") 0.85%float
              [(pystr "efficiency", PyStr (pystr "high"))]
              (pystr "2025-01-02T00:00:00") [] (CometEngine_init empty_store) [])
    as (h & r & st' & rec & Hh & _ & _ & Hrun & Hd & Hcits).
  - by vm_compute.
  - by vm_compute.
  - by vm_compute.
  - exists r, st', rec. split; [exact Hrun|]. split; [exact Hd|].
    rewrite Hcits. vm_compute in Hh. by injection Hh as <-.
Defined.

(** ** The registry after a history *)

Lemma perform_shortcuts (c : Call) (st st' : State) (o : Outcome) (l : list positive) :
  log_refs st = Some l →
  perform c st = Some (o, st') →
  shortcuts (self st') =
    foldl (λ m n, <[node_id n := n]> m) (shortcuts (self st)) (valid_registrations [c]).
Proof.
  intros Hl. destruct c as [node|now id ctx| |]; unfold perform; rewrite bind_run.
  - rewrite register_shortcut_run, ret_run. intros [= <- <-].
    unfold valid_registrations. simpl. by destruct (validate node).
  - destruct (shortcuts (self st) !! id) as [node|] eqn:Hn.
    + rewrite (execute_shortcut_run now id ctx node st l Hn Hl), ret_run.
      by intros [= <- <-].
    + rewrite (execute_shortcut_absent_run _ _ _ _ Hn), ret_run. by intros [= <- <-].
  - rewrite (export_schema_run _ _ Hl), ret_run. by intros [= <- <-].
  - rewrite (get_execution_log_run _ _ Hl), ret_run. by intros [= <- <-].
Qed.

Lemma run_shortcuts (cs : list Call) (st st' : State) (os : list Outcome)
    (l : list positive) :
  log_refs st = Some l →
  run cs st = Some (os, st') →
  shortcuts (self st') =
    foldl (λ m n, <[node_id n := n]> m) (shortcuts (self st)) (valid_registrations cs).
Proof.
  revert st os l. induction cs as [|c cs IH]; intros st os l Hl Hrun.
  - simpl in Hrun. by injection Hrun as <- <-.
  - apply run_cons_inv in Hrun as (o & st1 & os' & Hc & Hrun & ->).
    pose proof (perform_log_refs c st st1 o l Hl Hc) as Hl1.
    rewrite (IH st1 os' _ Hl1 Hrun), (perform_shortcuts c st st1 o l Hl Hc).
    change (c :: cs) with ([c] ++ cs).
    unfold valid_registrations. by rewrite omap_app, foldl_app.
Qed.

Lemma foldl_insert_lookup (ns : list ShortcutNode) (m : gmap (list N) ShortcutNode)
    (id : str) :
  foldl (λ m n, <[node_id n := n]> m) m ns !! id =
    match last (filter (λ n, node_id n = id) ns) with
    | Some n => Some n
    | None => m !! id
    end.
Proof.
  revert m. induction ns as [|n ns IH]; intros m; [done|].
  simpl. rewrite IH, filter_cons.
  destruct (decide (node_id n = id)) as [Hid|Hid].
  - destruct (filter (λ n0, node_id n0 = id) ns) as [|n' l'] eqn:Hf.
    + simpl. rewrite <- Hid. apply lookup_insert_eq.
    + change (last (n :: n' :: l')) with (last (n' :: l')).
      destruct (last (n' :: l')) eqn:Hlast; [done|]. by apply last_None in Hlast.
  - destruct (last (filter (λ n0, node_id n0 = id) ns)); [done|].
    by apply lookup_insert_ne.
Qed.

(** X14: what the registry holds under an id is the node of the last
    [register_shortcut] call for that id that passed validation; calls that
    were rejected, and calls of the other three operations, have no part in
    it.  An id that no accepted registration named is not in the registry. *)
Theorem registry_is_last_valid_registration (h0 : Heap) (cs : list Call) :
  ∃ os st,
    run cs (CometEngine_init h0) = Some (os, st) ∧
    ∀ id, shortcuts (self st) !! id =
            last (filter (λ n, node_id n = id) (valid_registrations cs)).
Proof.
  destruct (run_fresh h0 cs) as (os & st & Hrun & _).
  assert (log_refs (CometEngine_init h0) = Some []) as Hl0.
  { unfold log_refs, CometEngine_init. simpl. apply lookup_insert_eq. }
  exists os, st. split; [done|]. intros id.
  rewrite (run_shortcuts cs _ _ _ _ Hl0 Hrun), foldl_insert_lookup.
  simpl. rewrite lookup_empty. by destruct (last _).
Qed.

(** ** The encoding loses nothing *)

Lemma lor_add (a b n : N) : (b < 2 ^ n → N.lor (a * 2 ^ n) b = a * 2 ^ n + b)%N.
Proof.
  intros Hb.
  assert (N.land (a * 2 ^ n) b = 0%N) as Hland.
  { apply N.bits_inj. intros i. rewrite N.land_spec, N.bits_0.
    destruct (N.lt_ge_cases i n) as [Hi|Hi].
    - by rewrite N.mul_pow2_bits_low.
    - rewrite <- (N.mod_small b (2 ^ n)) by done.
      rewrite N.mod_pow2_bits_high by done. apply andb_false_r. }
  rewrite <- N.lxor_lor by done. symmetry. by apply N.add_nocarry_lxor.
Qed.

(** A continuation byte. *)
Lemma continuation_byte (x : N) : (N.lor 0x80 (N.land x 0x3F) = 128 + x mod 64)%N.
Proof.
  change 0x3F%N with (N.ones 6). rewrite N.land_ones.
  change 0x80%N with (2 * 2 ^ 6)%N. rewrite lor_add; [done|].
  by apply N.mod_lt.
Qed.

(** The bytes of a code point, in arithmetic. *)
Lemma utf8_encode_char_bytes (c : N) (bs : list N) :
  utf8_encode_char c = Some bs →
  ((c < 0x80)%N ∧ bs = [c]) ∨
  ((0x80 ≤ c < 0x800)%N ∧ bs = [192 + c / 64; 128 + c mod 64]%N) ∨
  ((0x800 ≤ c < 0x10000)%N ∧
   bs = [224 + c / 4096; 128 + (c / 64) mod 64; 128 + c mod 64]%N) ∨
  ((0x10000 ≤ c < 0x110000)%N ∧
   bs = [240 + c / 262144; 128 + (c / 4096) mod 64; 128 + (c / 64) mod 64;
         128 + c mod 64]%N).
Proof.
  unfold utf8_encode_char.
  destruct (N.ltb_spec c 0x80); [intros [= <-]; by left|].
  destruct (N.ltb_spec c 0x800).
  { intros [= <-]. right; left. split; [done|].
    rewrite continuation_byte, N.shiftr_div_pow2.
    change 0xC0%N with (3 * 2 ^ 6)%N. rewrite lor_add; [done|].
    change (2 ^ 6)%N with 64%N. zify. Z.to_euclidean_division_equations. lia. }
  destruct (N.ltb_spec c 0x10000).
  { destruct (is_surrogate c); [done|]. intros [= <-]. right; right; left.
    split; [done|].
    rewrite !continuation_byte, !N.shiftr_div_pow2.
    change 0xE0%N with (7 * 2 ^ 5)%N. rewrite lor_add; [done|].
    change (2 ^ 5)%N with 32%N. change (2 ^ 12)%N with 4096%N.
    zify. Z.to_euclidean_division_equations. lia. }
  destruct (N.ltb_spec c 0x110000); [|done].
  intros [= <-]. right; right; right. split; [done|].
  rewrite !continuation_byte, !N.shiftr_div_pow2.
  change 0xF0%N with (15 * 2 ^ 4)%N. rewrite lor_add; [done|].
  change (2 ^ 4)%N with 16%N. change (2 ^ 18)%N with 262144%N.
  zify. Z.to_euclidean_division_equations. lia.
Qed.

Lemma utf8_decode_encode_char (c : N) (bs rest : list N) :
  utf8_encode_char c = Some bs →
  utf8_decode_char (bs ++ rest) = Some (c, rest).
Proof.
  intros [[Hc ->]|[[Hc ->]|[[Hc ->]|[Hc ->]]]]%utf8_encode_char_bytes;
    unfold utf8_decode_char; simpl;
    repeat match goal with
           | |- context [N.ltb ?x ?y] =>
               destruct (N.ltb_spec x y);
               try (exfalso; zify; Z.to_euclidean_division_equations; lia)
           end;
    do 2 f_equal; zify; Z.to_euclidean_division_equations; lia.
Qed.

Lemma utf8_encode_from_inj (s1 s2 : str) (p1 p2 : nat) (bytes : list N) :
  utf8_encode_from p1 s1 = Ok bytes →
  utf8_encode_from p2 s2 = Ok bytes →
  s1 = s2.
Proof.
  revert s2 p1 p2 bytes. induction s1 as [|c1 s1 IH]; intros [|c2 s2] p1 p2 bytes; simpl.
  - done.
  - intros [= <-]. destruct (utf8_encode_char c2) as [bs2|] eqn:Hc2; [|done].
    destruct (utf8_encode_from (S p2) s2) as [rest2|]; [|done].
    intros [= Hnil]. pose proof (utf8_decode_encode_char c2 bs2 rest2 Hc2) as Hd.
    by rewrite Hnil in Hd.
  - destruct (utf8_encode_char c1) as [bs1|] eqn:Hc1; [|done].
    destruct (utf8_encode_from (S p1) s1) as [rest1|]; [|done].
    intros [= <-] [= Hnil]. pose proof (utf8_decode_encode_char c1 bs1 rest1 Hc1) as Hd.
    by rewrite <- Hnil in Hd.
  - destruct (utf8_encode_char c1) as [bs1|] eqn:Hc1; [|done].
    destruct (utf8_encode_from (S p1) s1) as [rest1|] eqn:Hs1; [|done].
    destruct (utf8_encode_char c2) as [bs2|] eqn:Hc2; [|done].
    destruct (utf8_encode_from (S p2) s2) as [rest2|] eqn:Hs2; [|done].
    intros [= <-] [= Heq].
    pose proof (utf8_decode_encode_char c1 bs1 rest1 Hc1) as Hd1.
    pose proof (utf8_decode_encode_char c2 bs2 rest2 Hc2) as Hd2.
    rewrite Heq, Hd1 in Hd2. injection Hd2 as -> ->.
    f_equal. by eapply IH.
Qed.

(** X15: the encoding step tells contents apart.  Two content strings are
    hashed from the same bytes exactly if they are the same string, so two
    different contents with one digest are a collision of SHA-256 itself. *)
Theorem encode_utf8_injective (s1 s2 : str) (b1 b2 : list N) :
  encode_utf8 s1 = Ok b1 →
  encode_utf8 s2 = Ok b2 →
  (b1 = b2 ↔ s1 = s2) ∧
  sha256_hex s1 = Ok (SHA256.hexdigest b1) ∧
  sha256_hex s2 = Ok (SHA256.hexdigest b2).
Proof.
  intros H1 H2. split.
  - split.
    + intros <-. by eapply utf8_encode_from_inj.
    + intros <-. congruence.
  - unfold sha256_hex. by rewrite H1, H2.
Qed.

Lemma encode_utf8_injective_witness :
  [0xC3; 0xA9]%N = [0x65; 0xCC; 0x81]%N ↔ [0xE9]%N = [0x65; 0x301]%N.
Proof.
  apply (encode_utf8_injective [0xE9]%N [0x65; 0x301]%N
           [0xC3; 0xA9]%N [0x65; 0xCC; 0x81]%N).
  - reflexivity.
  - reflexivity.
Defined.

(** ** The log after a history *)

Lemma perform_entries (c : Call) (st st' : State) (o : Outcome)
    (es : list ExecutionRecord) :
  log_entries st = Some es →
  perform c st = Some (o, st') →
  ∃ new, log_entries st' = Some (es ++ new) ∧ entry_call <$> new = executed [c] [o].
Proof.
  intros Hes. pose proof Hes as (l & Hl & _)%log_entries_Some.
  destruct c as [node|now id ctx| |]; unfold perform; rewrite bind_run.
  - rewrite register_shortcut_run, ret_run. intros [= <- <-].
    exists []. rewrite app_nil_r. split; [|done]. by destruct (validate node).
  - destruct (shortcuts (self st) !! id) as [node|] eqn:Hn.
    + destruct (execute_shortcut_logged now id ctx node st es Hn Hes)
        as (r & st1 & Hrun & _ & _ & _ & Hes1 & _).
      rewrite Hrun, ret_run. intros [= <- <-]. eexists. split; [exact Hes1|done].
    + rewrite (execute_shortcut_absent_run _ _ _ _ Hn), ret_run. intros [= <- <-].
      exists []. by rewrite app_nil_r.
  - rewrite (export_schema_run _ _ Hl), ret_run. intros [= <- <-].
    exists []. by rewrite app_nil_r.
  - rewrite (get_execution_log_run _ _ Hl), ret_run. intros [= <- <-].
    exists []. rewrite app_nil_r. split; [|done].
    pose proof (log_not_fresh _ _ Hl) as Hne.
    destruct (caller_set_items_log _ l st Hne) as [_ Hes']. by rewrite <- Hes.
Qed.

Lemma run_entries (cs : list Call) (st st' : State) (os : list Outcome)
    (es : list ExecutionRecord) :
  log_entries st = Some es →
  run cs st = Some (os, st') →
  ∃ new, log_entries st' = Some (es ++ new) ∧ entry_call <$> new = executed cs os.
Proof.
  revert st os es. induction cs as [|c cs IH]; intros st os es Hes Hrun.
  - simpl in Hrun. injection Hrun as <- <-. exists []. by rewrite app_nil_r.
  - apply run_cons_inv in Hrun as (o & st1 & os' & Hc & Hrun & ->).
    destruct (perform_entries c st st1 o es Hes Hc) as (new1 & Hes1 & Hk1).
    destruct (IH st1 os' _ Hes1 Hrun) as (new2 & Hes2 & Hk2).
    exists (new1 ++ new2). split; [by rewrite app_assoc|].
    rewrite fmap_app, Hk1, Hk2.
    change (c :: cs) with ([c] ++ cs). change (o :: os') with ([o] ++ os').
    unfold executed. by rewrite zip_with_app, omap_app.
Qed.

(** X16: the log of an engine tells its history of executions and nothing
    else.  Its entries are, in order, one for each [execute_shortcut] call that
    found its id, with the clock reading, the id and the context of that
    call; calls on unknown ids, registrations, exports and log reads leave no
    entry. *)
Theorem log_records_executions (h0 : Heap) (cs : list Call) :
  ∃ os st es,
    run cs (CometEngine_init h0) = Some (os, st) ∧
    log_entries st = Some es ∧
    entry_call <$> es = executed cs os.
Proof.
  destruct (run_fresh h0 cs) as (os & st & Hrun & _).
  destruct (run_entries cs _ _ _ [] (init_log h0) Hrun) as (es & Hes & Hk).
  by exists os, st, es.
Qed.
